(** * ginjigo/middleware: rate limiter and deadline executor

    A shallow embedding of [ratelimit.go], [timeout.go] and the helper
    [isIPInCIDR] of [auth.go], with the properties of the two core
    components stated over it.

    Conventions.
    - Go [int] and [time.Duration] values are integers [Z]; the places
      where the 64-bit range matters are [time.Time.Sub], whose saturation
      is written out, and the products of durations in [cleanup],
      [TimeoutSeconds] and [TimeoutMinutes], which wrap around.
    - A [time.Time] is the instant in nanoseconds, an integer [Z].
    - Go maps are [gmap]s; a [*bucket] stored in the directory is the
      value at its key, and a mutation through the pointer is an insert
      at that key.
    - Functions of Go's standard library and of the [ginji] framework that
      the middleware only calls ([json.Marshal], [Duration.String],
      [Time.Format], [textproto.CanonicalMIMEHeaderKey], [net.ParseCIDR],
      ...) are [Variable]s of the section that uses them. *)

From stdpp Require Import gmap strings list fin_maps pretty relations.
From Stdlib Require Import ZArith Lia Strings.Ascii Strings.Byte.

Open Scope Z_scope.

(** ** Package [time] *)

Module GoTime.

Definition Nanosecond : Z := 1.

Definition Microsecond : Z := 1000 * Nanosecond.

Definition Millisecond : Z := 1000 * Microsecond.

Definition Second : Z := 1000 * Millisecond.

Definition Minute : Z := 60 * Second.

Definition Hour : Z := 60 * Minute.

Definition minDuration : Z := - 2 ^ 63.

Definition maxDuration : Z := 2 ^ 63 - 1.

(** A value that fits [time.Duration] (an [int64]). *)
Definition is_Duration (d : Z) : Prop := minDuration <= d <= maxDuration.

(** [t.Sub(u)]: the difference, clamped to the range of a [Duration]. *)
Definition Sub (t u : Z) : Z :=
  if maxDuration <? t - u then maxDuration
  else if t - u <? minDuration then minDuration
  else t - u.

(** [t.Add(d)]. *)
Definition Add (t d : Z) : Z := t + d.

(** [time.Until(t)] when [time.Now()] returns [now]. *)
Definition Until (now t : Z) : Z := Sub t now.

(** [int(d.Seconds())]: [Seconds] is the floating-point number of seconds
    and the conversion to [int] drops the fraction, rounding toward zero.
    The quotient is exact for every duration below 2^23 seconds, where
    the sum of the integer and the fractional part is not rounded up. *)
Definition int_Seconds (d : Z) : Z := Z.quot d Second.

(** [t.Unix()]: seconds since the epoch, rounded down. *)
Definition Unix (t : Z) : Z := t `div` Second.

Lemma Sub_ge_iff (t u w : Z) :
  w <= maxDuration -> minDuration < w -> (w <= Sub t u <-> w <= t - u).
Proof.
  unfold Sub, maxDuration, minDuration. intros Hw Hw'.
  repeat case_match; lia.
Qed.

Lemma Sub_exact (t u : Z) : is_Duration (t - u) -> Sub t u = t - u.
Proof.
  unfold is_Duration, Sub, maxDuration, minDuration. intros H.
  repeat case_match; lia.
Qed.




End GoTime.

(** ** The [ginji] framework, as far as the middleware uses it *)

Module Ginji.

(** The values that the middleware puts in a [ginji.H] ([map[string]any]). *)
Inductive JSON := JString (s : string) | JInt (n : Z).

(** [c.Req]: the peer address and the header lookup behind [c.Header]. *)
Record Request := { RemoteAddr : string; ReqHeader : string -> string }.

(** What a handler has sent through [AbortWithStatusJSON]. *)
Inductive Reply := NoReply | StatusJSON (code : Z) (body : gmap string JSON).

(** [ginji.Context]: the request, the key/value bag, the response headers
    set through [c.SetHeader], the abort flag and the reply. *)
Record Context := {
  Req : Request;
  Keys : gmap string string;
  ResHeader : gmap string string;
  aborted : bool;
  reply : Reply
}.

Definition Header (c : Context) (name : string) : string := ReqHeader (Req c) name.

Definition SetHeader (c : Context) (k v : string) : Context :=
  {| Req := Req c; Keys := Keys c; ResHeader := <[k := v]> (ResHeader c);
     aborted := aborted c; reply := reply c |}.

Definition AbortWithStatusJSON (c : Context) (code : Z) (obj : gmap string JSON) : Context :=
  {| Req := Req c; Keys := Keys c; ResHeader := ResHeader c;
     aborted := true; reply := StatusJSON code obj |}.

(** How a middleware function ends: with [return c.Next()], or with
    [return nil] without calling the rest of the chain. *)
Inductive flow := CallNext | ReturnNil.

End Ginji.

(** ** [ratelimit.go] *)

Module RateLimit.
Import GoTime Ginji.

(** [RateLimiterConfig]; a nil function field is [None]. *)
Record RateLimiterConfig := Config {
  Max : Z;
  Window : Z;
  KeyFunc : option (Context -> string);
  ErrorMessage : string;
  StatusCode : Z;
  SkipFunc : option (Context -> bool);
  Headers : bool;
  TrustedProxies : list string
}.

Definition StatusTooManyRequests : Z := 429.

(** [bucket]: the token count and the start of the current window (the
    mutex is the subject of module [AdmitLocks]). *)
Record bucket := Bucket { tokens : Z; lastReset : Z }.

(** [rateLimiter]: the bucket directory and the configuration (the lock
    and the stop channel of the sweep are left to [AdmitLocks]). *)
Record rateLimiter := Limiter {
  buckets : gmap string bucket;
  config : RateLimiterConfig
}.

Definition set_buckets (rl : rateLimiter) (m : gmap string bucket) : rateLimiter :=
  {| buckets := m; config := config rl |}.

(** The result triple of [allow]. *)
Record verdict := Verdict { allowed : bool; remaining : Z; resetTime : Z }.

(** [(rl *rateLimiter) allow(key)], with the value of [time.Now()] as the
    argument [now]. *)
Definition allow (rl : rateLimiter) (now : Z) (key : string) : verdict * rateLimiter :=
  (* Get or create bucket *)
  let b := match buckets rl !! key with
           | Some b => b
           | None => {| tokens := Max (config rl); lastReset := now |}
           end in
  (* Reset bucket if window has passed *)
  let b := if Window (config rl) <=? Sub now (lastReset b)
           then {| tokens := Max (config rl); lastReset := now |}
           else b in
  let reset := Add (lastReset b) (Window (config rl)) in
  (* Check if tokens are available *)
  if 0 <? tokens b then
    let b' := {| tokens := tokens b - 1; lastReset := lastReset b |} in
    (Verdict true (tokens b') reset, set_buckets rl (<[key := b']> (buckets rl)))
  else
    (Verdict false 0 reset, set_buckets rl (<[key := b]> (buckets rl))).

(** [defaultKeyFunc]: the peer address, whatever the headers say. *)
Definition defaultKeyFunc (c : Context) : string := RemoteAddr (Req c).

Definition DefaultRateLimiterConfig : RateLimiterConfig :=
  {| Max := 100; Window := Minute; KeyFunc := Some defaultKeyFunc;
     ErrorMessage := ""; StatusCode := StatusTooManyRequests;
     SkipFunc := None; Headers := true; TrustedProxies := [] |}.

(** The configuration that [RateLimit(max, window)] hands to
    [RateLimitWithConfig]. *)
Definition RateLimit_config (max window : Z) : RateLimiterConfig :=
  let config := DefaultRateLimiterConfig in
  {| Max := max; Window := window; KeyFunc := KeyFunc config;
     ErrorMessage := ErrorMessage config; StatusCode := StatusCode config;
     SkipFunc := SkipFunc config; Headers := Headers config;
     TrustedProxies := TrustedProxies config |}.

(** Successive [allow] calls for one key, at the given clock readings. *)
Fixpoint admits (rl : rateLimiter) (key : string) (times : list Z)
  : list verdict * rateLimiter :=
  match times with
  | [] => ([], rl)
  | now :: rest =>
      let '(v, rl1) := allow rl now key in
      let '(vs, rl2) := admits rl1 key rest in
      (v :: vs, rl2)
  end.

(** *** The key functions and the middleware *)

Section Middleware.

(** Package [net]: [ParseCIDR] and [ParseIP] answer [None] where Go
    returns an error or a nil address. *)
Variables IPNet IP : Type.
Variable ParseCIDR : string -> option IPNet.
Variable ParseIP : string -> option IP.
Variable Contains : IPNet -> IP -> bool.
(** [strings.TrimSpace], [Duration.String] and [Time.Format(time.RFC3339)]. *)
Variable TrimSpace : string -> string.
Variable Duration_String : Z -> string.
Variable Format_RFC3339 : Z -> string.

(** [strings.LastIndex(s, sep)] for a separator of one byte. *)
Fixpoint LastIndexByte (s : string) (sep : Ascii.ascii) : option nat :=
  match s with
  | EmptyString => None
  | String a rest =>
      match LastIndexByte rest sep with
      | Some i => Some (S i)
      | None => if Ascii.eqb a sep then Some 0%nat else None
      end
  end.

(** [isIPInCIDR] of [auth.go]. *)
Definition isIPInCIDR (ipStr cidr : string) : bool :=
  match ParseCIDR cidr with
  | None =>
      (* Not a CIDR, do exact match *)
      String.eqb ipStr cidr
  | Some ipNet =>
      (* Parse IP (remove port if present) *)
      let ip := match LastIndexByte ipStr ":" with
                | Some idx => String.substring 0 idx ipStr
                | None => ipStr
                end in
      match ParseIP ip with
      | None => false
      | Some parsedIP => Contains ipNet parsedIP
      end
  end.

(** The loop of [keyFuncWithTrustedProxies] that looks for the peer among
    the trusted proxies. *)
Definition isTrusted (trustedProxies : list string) (remoteIP : string) : bool :=
  existsb (fun proxy => String.eqb remoteIP proxy || isIPInCIDR remoteIP proxy)
          trustedProxies.

Definition keyFuncWithTrustedProxies (trustedProxies : list string) (c : Context) : string :=
  let remoteIP := RemoteAddr (Req c) in
  (* Only use X-Forwarded-For if from trusted proxy *)
  if isTrusted trustedProxies remoteIP then
    let ip := Header c "X-Forwarded-For" in
    if negb (String.eqb ip "") then
      (* Return first IP (original client) *)
      match String.index 0 "," ip with
      | Some idx => TrimSpace (String.substring 0 idx ip)
      | None => ip
      end
    else
      let ip := Header c "X-Real-IP" in
      if negb (String.eqb ip "") then ip else remoteIP
  else remoteIP.

(** The defaults that [RateLimitWithConfig] fills in before it builds the
    limiter. *)
Definition setDefaults (config : RateLimiterConfig) : RateLimiterConfig :=
  let max := if Max config <=? 0 then 100 else Max config in
  let window := if Window config <=? 0 then Minute else Window config in
  let keyFunc := match KeyFunc config with
                 | None => defaultKeyFunc
                 | Some f => f
                 end in
  let statusCode := if StatusCode config =? 0 then StatusTooManyRequests
                    else StatusCode config in
  let errorMessage :=
    if String.eqb (ErrorMessage config) ""
    then ("Rate limit exceeded. Maximum " +:+ pretty max +:+ " requests per "
          +:+ Duration_String window)%string
    else ErrorMessage config in
  (* Setup key function with trusted proxies if configured *)
  let keyFunc := if (0 <? length (TrustedProxies config))%nat
                 then keyFuncWithTrustedProxies (TrustedProxies config)
                 else keyFunc in
  {| Max := max; Window := window; KeyFunc := Some keyFunc;
     ErrorMessage := errorMessage; StatusCode := statusCode;
     SkipFunc := SkipFunc config; Headers := Headers config;
     TrustedProxies := TrustedProxies config |}.

(** The limiter that [RateLimitWithConfig] creates. *)
Definition newLimiter (config : RateLimiterConfig) : rateLimiter :=
  {| buckets := ∅; config := setDefaults config |}.

(** [config.KeyFunc(c)]; the field is not nil once [setDefaults] has run. *)
Definition keyOf (config : RateLimiterConfig) (c : Context) : string :=
  match KeyFunc config with
  | Some f => f c
  | None => defaultKeyFunc c
  end.

(** [config.SkipFunc != nil && config.SkipFunc(c)] *)
Definition skips (config : RateLimiterConfig) (c : Context) : bool :=
  match SkipFunc config with
  | Some f => f c
  | None => false
  end.

(** The body that [RateLimitWithConfig] sends with the denial. *)
Definition denial (config : RateLimiterConfig) (reset : Z) : gmap string JSON :=
  {[ "error" := JString (ErrorMessage config);
     "limit" := JInt (Max config);
     "window" := JString (Duration_String (Window config));
     "retryAt" := JString (Format_RFC3339 reset) ]}.

(** The function that [RateLimitWithConfig] returns, over the limiter it
    closes on.  The clock is read twice: [now] inside [allow], and [later]
    by [time.Until] when the call is denied. *)
Definition serve (limiter : rateLimiter) (now later : Z) (c : Context)
  : Context * rateLimiter * flow :=
  let config := config limiter in
  (* Skip if skip function returns true *)
  if skips config c then (c, limiter, CallNext)
  else
    let key := keyOf config c in
    let '(v, limiter) := allow limiter now key in
    (* Add rate limit headers if enabled *)
    let c :=
      if Headers config then
        let c := SetHeader c "X-RateLimit-Limit" (pretty (Max config)) in
        let c := SetHeader c "X-RateLimit-Remaining" (pretty (remaining v)) in
        SetHeader c "X-RateLimit-Reset" (pretty (Unix (resetTime v)))
      else c in
    if negb (allowed v) then
      let c := SetHeader c "Retry-After"
                 (pretty (int_Seconds (Until later (resetTime v)))) in
      let c := AbortWithStatusJSON c (StatusCode config) (denial config (resetTime v)) in
      (c, limiter, ReturnNil)
    else (c, limiter, CallNext).

(** The peer matches no entry of the allow-list, neither literally nor by
    CIDR containment. *)
Definition untrusted (trustedProxies : list string) (remoteIP : string) : Prop :=
  Forall (fun proxy => remoteIP <> proxy /\ isIPInCIDR remoteIP proxy = false)
         trustedProxies.

(** *** Properties of [allow] *)

Lemma set_buckets_id (rl : rateLimiter) : set_buckets rl (buckets rl) = rl.
Proof. by destruct rl. Qed.

Lemma Sub_diag (t : Z) : Sub t t = 0.
Proof. unfold Sub. rewrite Z.sub_diag. reflexivity. Qed.

(** A key with no bucket gets one holding [Max - 1] tokens, in a window
    that starts now. *)
Lemma allow_fresh (rl : rateLimiter) (now : Z) (key : string) :
  buckets rl !! key = None -> 0 < Max (config rl) -> 0 < Window (config rl) ->
  allow rl now key =
    (Verdict true (Max (config rl) - 1) (now + Window (config rl)),
     set_buckets rl (<[key := Bucket (Max (config rl) - 1) now]> (buckets rl))).
Proof.
  intros Hnone Hmax Hwin. unfold allow. rewrite Hnone. cbn.
  rewrite Sub_diag.
  destruct (Z.leb_spec (Window (config rl)) 0) as [?|_]; [lia|]. cbn.
  destruct (Z.ltb_spec 0 (Max (config rl))) as [_|?]; [|lia].
  reflexivity.
Qed.

(** Inside the window, a bucket with a token left gives it away. *)
Lemma allow_take (rl : rateLimiter) (now : Z) (key : string) (n t0 : Z) :
  buckets rl !! key = Some (Bucket n t0) -> 0 < n ->
  Sub now t0 < Window (config rl) ->
  allow rl now key =
    (Verdict true (n - 1) (t0 + Window (config rl)),
     set_buckets rl (<[key := Bucket (n - 1) t0]> (buckets rl))).
Proof.
  intros Hb Hn Hin. unfold allow. rewrite Hb. cbn.
  destruct (Z.leb_spec (Window (config rl)) (Sub now t0)) as [?|_]; [lia|]. cbn.
  destruct (Z.ltb_spec 0 n) as [_|?]; [|lia].
  reflexivity.
Qed.

(** Inside the window, an empty bucket denies and nothing changes. *)
Lemma allow_deny (rl : rateLimiter) (now : Z) (key : string) (b : bucket) :
  buckets rl !! key = Some b -> tokens b <= 0 ->
  Sub now (lastReset b) < Window (config rl) ->
  allow rl now key = (Verdict false 0 (lastReset b + Window (config rl)), rl).
Proof.
  intros Hb Hn Hin. unfold allow. rewrite Hb.
  destruct (Z.leb_spec (Window (config rl)) (Sub now (lastReset b))) as [?|_]; [lia|].
  destruct (Z.ltb_spec 0 (tokens b)) as [?|_]; [lia|].
  rewrite insert_id by done. by rewrite set_buckets_id.
Qed.

(** Once the window has passed, the bucket is refilled before the check. *)
Lemma allow_rollover (rl : rateLimiter) (now : Z) (key : string) (b : bucket) :
  buckets rl !! key = Some b -> 0 < Max (config rl) ->
  Window (config rl) <= Sub now (lastReset b) ->
  allow rl now key =
    (Verdict true (Max (config rl) - 1) (now + Window (config rl)),
     set_buckets rl (<[key := Bucket (Max (config rl) - 1) now]> (buckets rl))).
Proof.
  intros Hb Hmax Hout. unfold allow. rewrite Hb.
  destruct (Z.leb_spec (Window (config rl)) (Sub now (lastReset b))) as [_|?]; [|lia].
  cbn. destruct (Z.ltb_spec 0 (Max (config rl))) as [_|?]; [|lia].
  reflexivity.
Qed.

(** A call for one key leaves the buckets of the other keys alone. *)
Lemma allow_other_key (rl : rateLimiter) (now : Z) (key key' : string) :
  key <> key' -> buckets (allow rl now key).2 !! key' = buckets rl !! key'.
Proof.
  intros Hne. unfold allow.
  repeat case_match; cbn; by rewrite lookup_insert_ne.
Qed.

Lemma allow_config (rl : rateLimiter) (now : Z) (key : string) :
  config (allow rl now key).2 = config rl.
Proof. unfold allow. by repeat case_match. Qed.

Lemma admits_cons (rl : rateLimiter) (key : string) (now : Z) (rest : list Z) :
  admits rl key (now :: rest) =
    ((allow rl now key).1 :: (admits (allow rl now key).2 key rest).1,
     (admits (allow rl now key).2 key rest).2).
Proof.
  cbn [admits]. destruct (allow rl now key) as [v rl1]. cbn [fst snd].
  destruct (admits rl1 key rest) as [vs rl2]. reflexivity.
Qed.

(** A run of calls inside one window, with enough tokens for all of them:
    the [i]-th call leaves [n - 1 - i] tokens and the window start stays. *)
Lemma admits_take (key : string) (ts : list Z) :
  forall (rl : rateLimiter) (n t0 : Z),
    buckets rl !! key = Some (Bucket n t0) ->
    Z.of_nat (length ts) <= n ->
    Forall (fun t => Sub t t0 < Window (config rl)) ts ->
    (forall i : nat, (i < length ts)%nat ->
       (admits rl key ts).1 !! i =
         Some (Verdict true (n - 1 - Z.of_nat i) (t0 + Window (config rl))))
    /\ length (admits rl key ts).1 = length ts
    /\ (admits rl key ts).2 =
         set_buckets rl (<[key := Bucket (n - Z.of_nat (length ts)) t0]> (buckets rl)).
Proof.
  induction ts as [|t ts IH]; intros rl n t0 Hb Hlen Hin.
  - cbn. split; [intros i Hi; lia|]. split; [done|].
    rewrite Z.sub_0_r, insert_id by done. by rewrite set_buckets_id.
  - apply Forall_cons in Hin as [Ht Hts]. cbn beta in Ht. cbn [length] in Hlen.
    rewrite admits_cons, (allow_take rl t key n t0) by (done || lia). cbn [fst snd].
    set (rl1 := set_buckets rl _).
    destruct (IH rl1 (n - 1) t0) as (Hi & Hl & Hst).
    { subst rl1. cbn. by rewrite lookup_insert_eq. }
    { lia. }
    { done. }
    split; [|split].
    + intros [|i] Hlt; cbn [fst lookup list_lookup].
      * f_equal. f_equal. lia.
      * cbn [length] in Hlt. rewrite Hi by lia. f_equal. f_equal. lia.
    + cbn. by rewrite Hl.
    + rewrite Hst. subst rl1. unfold set_buckets; cbn.
      rewrite insert_insert_eq. do 3 f_equal. lia.
Qed.

(** C2. A limiter with [Max = N] and window [W], and a key with no bucket:
    the first [N] calls made inside the window that the first of them opens
    are all admitted, the [i]-th (from 0) with [N - 1 - i] tokens remaining;
    the next call inside the window is denied with 0 remaining; a call made
    at least [W] after the window start, after all of these calls or after
    any number of them, is admitted with [N - 1] remaining; and the reset
    time is always the window start plus [W]. *)
Theorem allow_window_cycle (rl : rateLimiter) (key : string) (t0 : Z) (ts : list Z) :
  buckets rl !! key = None ->
  0 < Max (config rl) ->
  Z.of_nat (length (t0 :: ts)) = Max (config rl) ->
  Forall (fun t => Sub t t0 < Window (config rl)) (t0 :: ts) ->
  let run := admits rl key (t0 :: ts) in
  (forall i : nat, (i < length (t0 :: ts))%nat ->
     run.1 !! i = Some (Verdict true (Max (config rl) - 1 - Z.of_nat i) (t0 + Window (config rl))))
  /\ length run.1 = length (t0 :: ts)
  /\ (forall t, Sub t t0 < Window (config rl) ->
        allow run.2 t key = (Verdict false 0 (t0 + Window (config rl)), run.2))
  /\ (forall t, Window (config rl) <= Sub t t0 ->
        (allow run.2 t key).1 = Verdict true (Max (config rl) - 1) (t + Window (config rl)))
  /\ (forall (k : nat) t, (0 < k <= length (t0 :: ts))%nat ->
        Window (config rl) <= Sub t t0 ->
        (allow (admits rl key (take k (t0 :: ts))).2 t key).1
          = Verdict true (Max (config rl) - 1) (t + Window (config rl))).
Proof.
  intros Hnone Hmax Hlen Hin run.
  apply Forall_cons in Hin as [Ht0 Hts]. cbn beta in Ht0. rewrite Sub_diag in Ht0.
  assert (Hrun : run =
    ((allow rl t0 key).1 :: (admits (allow rl t0 key).2 key ts).1,
     (admits (allow rl t0 key).2 key ts).2)) by apply admits_cons.
  rewrite allow_fresh in Hrun by done. cbn [fst snd] in Hrun.
  set (rl1 := set_buckets rl _) in Hrun.
  assert (Hb1 : buckets rl1 !! key = Some (Bucket (Max (config rl) - 1) t0)).
  { subst rl1. cbn. by rewrite lookup_insert_eq. }
  cbn [length] in Hlen.
  destruct (admits_take key ts rl1 (Max (config rl) - 1) t0 Hb1) as (Hi & Hl & Hst);
    [lia | done |].
  assert (Hb2 : buckets run.2 !! key = Some (Bucket 0 t0)).
  { rewrite Hrun. cbn [snd]. rewrite Hst. cbn. rewrite lookup_insert_eq.
    do 2 f_equal. lia. }
  assert (Hcfg : Max (config run.2) = Max (config rl) /\ Window (config run.2) = Window (config rl)).
  { rewrite Hrun. cbn [snd]. rewrite Hst. by subst rl1. }
  destruct Hcfg as [HM HW].
  split; [|split; [|split; [|split]]].
  - intros [|i] Hlt; rewrite Hrun; cbn [fst lookup list_lookup].
    + f_equal. f_equal. lia.
    + cbn [length] in Hlt. rewrite Hi by lia. f_equal. f_equal. lia.
  - rewrite Hrun. cbn. by rewrite Hl.
  - intros t Ht. rewrite <- HW in Ht |- *.
    apply (allow_deny run.2 t key (Bucket 0 t0) Hb2); [cbn; lia | exact Ht].
  - intros t Ht. rewrite <- HW in Ht |- *. rewrite <- HM in Hmax |- *.
    by rewrite (allow_rollover run.2 t key (Bucket 0 t0) Hb2 Hmax Ht).
  - intros [|k] t [Hk0 Hk] Ht; [lia|]. cbn [take length] in *.
    rewrite admits_cons, (allow_fresh rl t0 key) by done. cbn [fst snd]. fold rl1.
    destruct (admits_take key (take k ts) rl1 (Max (config rl) - 1) t0 Hb1)
      as (_ & _ & Hstk).
    { rewrite length_take. lia. }
    { by apply Forall_take. }
    rewrite Hstk.
    set (b := Bucket (Max (config rl) - 1 - Z.of_nat (length (take k ts))) t0).
    rewrite (allow_rollover _ t key b); [done | | done | done].
    cbn. by rewrite lookup_insert_eq.
Qed.

(** C10. A bucket whose window has not elapsed and that has no token left:
    the call is denied with 0 remaining and the reset time of the current
    window, and the limiter (the bucket's token count and window start
    included) is left as it was. *)
Theorem allow_denied_no_effect (rl : rateLimiter) (key : string) (b : bucket) (now : Z) :
  buckets rl !! key = Some b ->
  tokens b = 0 ->
  Sub now (lastReset b) < Window (config rl) ->
  (allow rl now key).1 = Verdict false 0 (lastReset b + Window (config rl))
  /\ (allow rl now key).2 = rl
  /\ buckets (allow rl now key).2 !! key = Some b.
Proof.
  intros Hb Hz Hin.
  rewrite (allow_deny rl now key b) by (done || lia). by cbn.
Qed.

(** *** The key of an untrusted peer *)

Lemma isTrusted_untrusted (trustedProxies : list string) (remoteIP : string) :
  untrusted trustedProxies remoteIP -> isTrusted trustedProxies remoteIP = false.
Proof.
  unfold untrusted, isTrusted.
  induction 1 as [|proxy rest [Hne Hcidr] _ IH]; [reflexivity|].
  cbn [existsb]. rewrite Hcidr, IH.
  apply String.eqb_neq in Hne. by rewrite Hne.
Qed.

Lemma isTrusted_trusted (trustedProxies : list string) (remoteIP : string) :
  isTrusted trustedProxies remoteIP = false -> untrusted trustedProxies remoteIP.
Proof.
  unfold untrusted, isTrusted.
  induction trustedProxies as [|proxy rest IH]; cbn [existsb]; intros H.
  - constructor.
  - apply orb_false_iff in H as [H Hrest].
    apply orb_false_iff in H as [Hne Hcidr].
    constructor; [|by apply IH].
    split; [by apply String.eqb_neq|done].
Qed.

(** C6. A peer that matches no entry of the trusted-proxy list gets its
    own address as the key, whatever [X-Forwarded-For] and [X-Real-IP]
    hold: two requests of that peer get the same key. The same holds for
    [defaultKeyFunc], which reads no header at all. *)
Theorem untrusted_peer_key (trustedProxies : list string) (c1 c2 : Context) :
  untrusted trustedProxies (RemoteAddr (Req c1)) ->
  RemoteAddr (Req c2) = RemoteAddr (Req c1) ->
  keyFuncWithTrustedProxies trustedProxies c1 = RemoteAddr (Req c1)
  /\ keyFuncWithTrustedProxies trustedProxies c2 =
       keyFuncWithTrustedProxies trustedProxies c1
  /\ defaultKeyFunc c1 = RemoteAddr (Req c1)
  /\ defaultKeyFunc c2 = defaultKeyFunc c1.
Proof.
  intros Hun Hsame. unfold keyFuncWithTrustedProxies, defaultKeyFunc.
  rewrite Hsame, (isTrusted_untrusted _ _ Hun). done.
Qed.

(** The key function that [RateLimitWithConfig] installs when the
    configuration names trusted proxies and no key function of its own. *)
Lemma setDefaults_key (config : RateLimiterConfig) (c : Context) :
  KeyFunc config = None \/ KeyFunc config = Some defaultKeyFunc ->
  untrusted (TrustedProxies config) (RemoteAddr (Req c)) ->
  keyOf (setDefaults config) c = RemoteAddr (Req c).
Proof.
  intros Hk Hun. unfold keyOf, setDefaults. cbn.
  case_match.
  - unfold keyFuncWithTrustedProxies. by rewrite (isTrusted_untrusted _ _ Hun).
  - by destruct Hk as [-> | ->].
Qed.

(** *** The response of the middleware *)

Lemma serve_unfold (limiter : rateLimiter) (now later : Z) (c : Context) :
  skips (config limiter) c = false ->
  let cfg := config limiter in
  let v := (allow limiter now (keyOf cfg c)).1 in
  let c1 :=
    if Headers cfg then
      SetHeader
        (SetHeader (SetHeader c "X-RateLimit-Limit" (pretty (Max cfg)))
                   "X-RateLimit-Remaining" (pretty (remaining v)))
        "X-RateLimit-Reset" (pretty (Unix (resetTime v)))
    else c in
  serve limiter now later c =
    if allowed v
    then (c1, (allow limiter now (keyOf cfg c)).2, CallNext)
    else (AbortWithStatusJSON
            (SetHeader c1 "Retry-After"
               (pretty (int_Seconds (Until later (resetTime v)))))
            (StatusCode cfg) (denial cfg (resetTime v)),
          (allow limiter now (keyOf cfg c)).2, ReturnNil).
Proof.
  intros Hskip. cbn zeta. unfold serve. rewrite Hskip.
  destruct (allow limiter now (keyOf (config limiter) c)) as [v l]. cbn [fst snd].
  by destruct (allowed v).
Qed.


(** C8, as the code has it. With the toggle on, the three [X-RateLimit-*]
    headers are set on every request that is not skipped. With the toggle
    off, no header other than [Retry-After] is touched. Whatever the
    toggle, [Retry-After] is set on every denial and on no admission. *)
Theorem rate_limit_headers (limiter : rateLimiter) (now later : Z) (c : Context) :
  skips (config limiter) c = false ->
  let cfg := config limiter in
  let v := (allow limiter now (keyOf cfg c)).1 in
  let c' := (serve limiter now later c).1.1 in
  (Headers cfg = true ->
     ResHeader c' !! "X-RateLimit-Limit" = Some (pretty (Max cfg))
     /\ ResHeader c' !! "X-RateLimit-Remaining" = Some (pretty (remaining v))
     /\ ResHeader c' !! "X-RateLimit-Reset" = Some (pretty (Unix (resetTime v))))
  /\ (Headers cfg = false ->
       forall k, k <> "Retry-After" -> ResHeader c' !! k = ResHeader c !! k)
  /\ (allowed v = false ->
       ResHeader c' !! "Retry-After" =
         Some (pretty (int_Seconds (Until later (resetTime v)))))
  /\ (allowed v = true ->
       ResHeader c' !! "Retry-After" = ResHeader c !! "Retry-After").
Proof.
  intros Hskip. cbn zeta.
  rewrite (serve_unfold _ _ _ _ Hskip). cbn zeta.
  split; [|split; [|split]].
  - intros ->. destruct (allowed _); cbn; by simplify_map_eq.
  - intros -> k Hk. destruct (allowed _); cbn; by simplify_map_eq.
  - intros ->. cbn. by simplify_map_eq.
  - intros ->. destruct (Headers _); cbn; by simplify_map_eq.
Qed.

End Middleware.

(** *** The limiter and the middleware on concrete requests

    The library functions are instantiated here: no string parses as a
    CIDR block (so the allow-list matches literally), and durations and
    instants print as their number of nanoseconds. The statements below
    do not depend on that choice. *)

Definition literalCIDR : string -> option unit := fun _ => None.

Definition literalIP : string -> option unit := fun _ => None.

Definition printNanos : Z -> string := fun d => (pretty d +:+ "ns")%string.

Definition keyFuncLiteral : list string -> Context -> string :=
  keyFuncWithTrustedProxies unit unit literalCIDR literalIP (fun _ _ => false) id.

Definition newLimiterLiteral : RateLimiterConfig -> rateLimiter :=
  newLimiter unit unit literalCIDR literalIP (fun _ _ => false) id printNanos.

Definition serveLiteral : rateLimiter -> Z -> Z -> Context -> Context * rateLimiter * flow :=
  serve printNanos printNanos.

(** A request of peer [peer] whose two forwarding headers both say [claimed]. *)
Definition forwarded (peer claimed : string) : Context :=
  {| Req := {| RemoteAddr := peer;
               ReqHeader := fun name =>
                 if String.eqb name "X-Forwarded-For" then claimed
                 else if String.eqb name "X-Real-IP" then claimed
                 else "" |};
     Keys := ∅; ResHeader := ∅; aborted := false; reply := NoReply |}.

(** One token per second, and a peer that has just spent it at time 0. *)
Definition spent (headers : bool) : rateLimiter :=
  let cfg := RateLimit_config 1 Second in
  let cfg := {| Max := Max cfg; Window := Window cfg; KeyFunc := KeyFunc cfg;
                ErrorMessage := ErrorMessage cfg; StatusCode := StatusCode cfg;
                SkipFunc := SkipFunc cfg; Headers := headers;
                TrustedProxies := TrustedProxies cfg |} in
  (serveLiteral (newLimiterLiteral cfg) 0 0 (forwarded "203.0.113.9:4711" "")).1.2.

(** C2 at [Max = 3], [Window = 1s], key ["k"], calls at 0, 1ns and 2ns. *)
Lemma allow_window_cycle_witness :
  let rl := Limiter ∅ (RateLimit_config 3 Second) in
  let run := admits rl "k" [0; 1; 2] in
  (forall i : nat, (i < 3)%nat ->
     run.1 !! i = Some (Verdict true (3 - 1 - Z.of_nat i) (0 + Second)))
  /\ length run.1 = 3%nat
  /\ (forall t, Sub t 0 < Second ->
        allow run.2 t "k" = (Verdict false 0 (0 + Second), run.2))
  /\ (forall t, Second <= Sub t 0 ->
        (allow run.2 t "k").1 = Verdict true (3 - 1) (t + Second))
  /\ (forall (k : nat) t, (0 < k <= 3)%nat -> Second <= Sub t 0 ->
        (allow (admits rl "k" (take k [0; 1; 2])).2 t "k").1
          = Verdict true (3 - 1) (t + Second)).
Proof.
  apply (allow_window_cycle (Limiter ∅ (RateLimit_config 3 Second)) "k" 0 [1; 2]).
  - reflexivity.
  - cbn. lia.
  - reflexivity.
  - repeat constructor; vm_compute; reflexivity.
Defined.

(** C10 at an exhausted bucket of a one-second window, half a second in. *)
Lemma allow_denied_no_effect_witness :
  let rl := Limiter {[ "k" := Bucket 0 0 ]} (RateLimit_config 3 Second) in
  (allow rl (500 * Millisecond) "k").1 = Verdict false 0 (0 + Second)
  /\ (allow rl (500 * Millisecond) "k").2 = rl
  /\ buckets (allow rl (500 * Millisecond) "k").2 !! "k" = Some (Bucket 0 0).
Proof.
  apply (allow_denied_no_effect
           (Limiter {[ "k" := Bucket 0 0 ]} (RateLimit_config 3 Second)) "k" (Bucket 0 0)
           (500 * Millisecond)).
  - reflexivity.
  - reflexivity.
  - vm_compute. reflexivity.
Defined.

(** The headers are read when the peer is a trusted proxy. *)
Example trusted_proxy_key :
  keyFuncLiteral ["10.0.0.1"] (forwarded "10.0.0.1" "198.51.100.7, 10.0.0.1") = "198.51.100.7".
Proof. reflexivity. Qed.

(** C6 at the allow-list [10.0.0.1] and the peer [203.0.113.9:4711], which
    sends two different forwarding headers. *)
Lemma untrusted_peer_key_witness :
  keyFuncLiteral ["10.0.0.1"] (forwarded "203.0.113.9:4711" "198.51.100.7")
    = "203.0.113.9:4711"
  /\ keyFuncLiteral ["10.0.0.1"] (forwarded "203.0.113.9:4711" "192.0.2.44")
     = keyFuncLiteral ["10.0.0.1"] (forwarded "203.0.113.9:4711" "198.51.100.7")
  /\ defaultKeyFunc (forwarded "203.0.113.9:4711" "198.51.100.7") = "203.0.113.9:4711"
  /\ defaultKeyFunc (forwarded "203.0.113.9:4711" "192.0.2.44")
     = defaultKeyFunc (forwarded "203.0.113.9:4711" "198.51.100.7").
Proof.
  apply (untrusted_peer_key unit unit literalCIDR literalIP (fun _ _ => false) id
           ["10.0.0.1"]
           (forwarded "203.0.113.9:4711" "198.51.100.7")
           (forwarded "203.0.113.9:4711" "192.0.2.44")).
  - constructor; [split; [discriminate | reflexivity] | constructor].
  - reflexivity.
Defined.

Example spent_bucket (headers : bool) :
  buckets (spent headers) !! "203.0.113.9:4711" = Some (Bucket 0 0).
Proof. by destruct headers. Qed.

(** Three requests a second: the first three calls of a peer pass with
    2, 1 and 0 remaining, the fourth is denied with a numeric
    [Retry-After]. *)
Example three_then_denied :
  let c := forwarded "203.0.113.9:4711" "" in
  let l0 := newLimiterLiteral (RateLimit_config 3 Second) in
  let r1 := serveLiteral l0 0 0 c in
  let r2 := serveLiteral r1.1.2 1 1 c in
  let r3 := serveLiteral r2.1.2 2 2 c in
  let r4 := serveLiteral r3.1.2 3 3 c in
  (r1.2, r2.2, r3.2, r4.2) = (CallNext, CallNext, CallNext, ReturnNil)
  /\ ResHeader r1.1.1 !! "X-RateLimit-Remaining" = Some "2"
  /\ ResHeader r2.1.1 !! "X-RateLimit-Remaining" = Some "1"
  /\ ResHeader r3.1.1 !! "X-RateLimit-Remaining" = Some "0"
  /\ ResHeader r4.1.1 !! "X-RateLimit-Remaining" = Some "0"
  /\ ResHeader r4.1.1 !! "Retry-After" = Some "0"
  /\ reply r4.1.1 =
       StatusJSON 429
         {[ "error" := JString "Rate limit exceeded. Maximum 3 requests per 1000000000ns";
            "limit" := JInt 3;
            "window" := JString "1000000000ns";
            "retryAt" := JString "1000000000ns" ]}.
Proof. vm_compute. repeat split; reflexivity. Qed.



(** C8 on the first and on the second request of a peer, toggle on. *)
Lemma rate_limit_headers_witness :
  let limiter := spent true in
  let c := forwarded "203.0.113.9:4711" "" in
  let now := 500 * Millisecond in
  let later := 750 * Millisecond in
  let cfg := config limiter in
  let v := (allow limiter now (keyOf cfg c)).1 in
  let c' := (serveLiteral limiter now later c).1.1 in
  (Headers cfg = true ->
     ResHeader c' !! "X-RateLimit-Limit" = Some (pretty (Max cfg))
     /\ ResHeader c' !! "X-RateLimit-Remaining" = Some (pretty (remaining v))
     /\ ResHeader c' !! "X-RateLimit-Reset" = Some (pretty (Unix (resetTime v))))
  /\ (Headers cfg = false ->
       forall k, k <> "Retry-After" -> ResHeader c' !! k = ResHeader c !! k)
  /\ (allowed v = false ->
       ResHeader c' !! "Retry-After" =
         Some (pretty (int_Seconds (Until later (resetTime v)))))
  /\ (allowed v = true ->
       ResHeader c' !! "Retry-After" = ResHeader c !! "Retry-After").
Proof.
  apply (rate_limit_headers printNanos printNanos (spent true)
           (500 * Millisecond) (750 * Millisecond)
           (forwarded "203.0.113.9:4711" "")).
  reflexivity.
Defined.

(** The claim of C8 fails on a denial with the toggle off: the three
    [X-RateLimit-*] headers are absent and [Retry-After] is there. *)
Lemma retry_after_with_headers_off :
  let limiter := spent false in
  let c := forwarded "203.0.113.9:4711" "" in
  let c' := (serveLiteral limiter (500 * Millisecond) (500 * Millisecond) c).1.1 in
  Headers (config limiter) = false
  /\ ResHeader c !! "Retry-After" = None
  /\ ResHeader c' !! "X-RateLimit-Limit" = None
  /\ ResHeader c' !! "Retry-After" = Some "0".
Proof. vm_compute. repeat split; reflexivity. Qed.

End RateLimit.

(** ** [timeout.go] *)

Module TimeoutMW.
Import GoTime Ginji.

(** [bufferedResponseWriter]: headers, body and status held back until the
    race between the handler and the deadline is decided. *)
Record bufferedResponseWriter := Buffered {
  header : gmap string (list string);
  buf : list byte;
  status : Z
}.

Definition newBufferedResponseWriter : bufferedResponseWriter :=
  {| header := ∅; buf := []; status := 200 |}.

(** [(w *bufferedResponseWriter) Write(b)] *)
Definition bw_Write (w : bufferedResponseWriter) (b : list byte) : bufferedResponseWriter :=
  {| header := header w; buf := buf w ++ b; status := status w |}.

(** [(w *bufferedResponseWriter) WriteHeader(statusCode)] *)
Definition bw_WriteHeader (w : bufferedResponseWriter) (statusCode : Z) : bufferedResponseWriter :=
  {| header := header w; buf := buf w; status := statusCode |}.

(** A write through the map that [(w *bufferedResponseWriter) Header()]
    hands out. *)
Definition bw_Header (w : bufferedResponseWriter)
    (edit : gmap string (list string) -> gmap string (list string)) : bufferedResponseWriter :=
  {| header := edit (header w); buf := buf w; status := status w |}.

(** The real [http.ResponseWriter] of the request: its header map and the
    [WriteHeader] and [Write] calls it has received, oldest first. *)
Inductive call := WriteHeaderCall (statusCode : Z) | WriteCall (b : list byte).

Record ResponseWriter := Sink {
  sent_header : gmap string (list string);
  calls : list call
}.

Definition rw_WriteHeader (w : ResponseWriter) (statusCode : Z) : ResponseWriter :=
  {| sent_header := sent_header w; calls := calls w ++ [WriteHeaderCall statusCode] |}.

Definition rw_Write (w : ResponseWriter) (b : list byte) : ResponseWriter :=
  {| sent_header := sent_header w; calls := calls w ++ [WriteCall b] |}.

Definition is_WriteHeader (c : call) : bool :=
  match c with WriteHeaderCall _ => true | WriteCall _ => false end.

(** The number of responses a sink has received: one per [WriteHeader]. *)
Definition responses (w : ResponseWriter) : nat :=
  length (List.filter is_WriteHeader (calls w)).

(** [TimeoutConfig] *)
Record TimeoutConfig := Config {
  Timeout : Z;
  ErrorMessage : string;
  StatusCode : Z;
  SkipFunc : option (Context -> bool)
}.

Definition StatusGatewayTimeout : Z := 504.

Definition DefaultTimeoutConfig : TimeoutConfig :=
  {| Timeout := 30 * Second; ErrorMessage := "Request timeout";
     StatusCode := StatusGatewayTimeout; SkipFunc := None |}.

(** The defaults that [TimeoutWithConfig] fills in. *)
Definition setDefaults (config : TimeoutConfig) : TimeoutConfig :=
  {| Timeout := if Timeout config <=? 0 then 30 * Second else Timeout config;
     ErrorMessage := if String.eqb (ErrorMessage config) "" then "Request timeout"
                     else ErrorMessage config;
     StatusCode := if StatusCode config =? 0 then StatusGatewayTimeout
                   else StatusCode config;
     SkipFunc := SkipFunc config |}.

(** What the downstream chain does, one step at a time, on the copy of the
    context and the buffered writer it is given. *)
Inductive op :=
| OpSet (key value : string)
| OpHeader (edit : gmap string (list string) -> gmap string (list string))
| OpWriteHeader (statusCode : Z)
| OpWrite (b : list byte)
| OpPanic.

(** The goroutine that runs [cp.Next()]: still running, with the steps
    left; past [close(done)]; stopped by a panic that the deferred
    [recover()] took, with [done] left open; or, had nothing recovered,
    the crash of the process. *)
Inductive task := Running (rest : list op) | Closed | Recovered | Crashed.

(** What a panic in a goroutine leads to, with and without a deferred
    [recover()]. *)
Definition unwind (deferred_recover : bool) : task :=
  if deferred_recover then Recovered else Crashed.

(** [ctx.Err()] once [ctx.Done()] is closed. *)
Inductive ctxErr := DeadlineExceeded | Canceled.

(** The [select] of the calling goroutine: still waiting, or returned
    through one of its two cases. *)
Inductive branch := CaseDone | CaseCtxDone (err : ctxErr).

Inductive progress := Waiting | Returned (b : branch).

(** Which writer [c.Res] points to. *)
Inductive writer := Original | Buffer.

(** One request inside the function that [TimeoutWithConfig] returns. *)
Record state := State {
  originalRes : ResponseWriter;
  buffered : bufferedResponseWriter;
  c_Res : writer;
  c_Keys : gmap string string;
  c_aborted : bool;
  cp_Keys : gmap string string;
  goroutine : task;
  ctx_err : option ctxErr;
  main : progress
}.

(** The state when the [select] is entered: [c.Res] is the fresh buffered
    writer, [cp] is the deep copy of [c], the goroutine is about to call
    [cp.Next()], and the context has neither expired nor been cancelled. *)
Definition start (res : ResponseWriter) (keys : gmap string string) (next : list op) : state :=
  {| originalRes := res; buffered := newBufferedResponseWriter; c_Res := Buffer;
     c_Keys := keys; c_aborted := false; cp_Keys := keys;
     goroutine := Running next; ctx_err := None; main := Waiting |}.

(** One step of the chain, on the buffered writer and on the keys of [cp]. *)
Definition op_writer (o : op) (w : bufferedResponseWriter) : bufferedResponseWriter :=
  match o with
  | OpHeader edit => bw_Header w edit
  | OpWriteHeader statusCode => bw_WriteHeader w statusCode
  | OpWrite b => bw_Write w b
  | OpSet _ _ | OpPanic => w
  end.

(** [c.Set(key, value)] on [cp]. *)
Definition op_keys (o : op) (keys : gmap string string) : gmap string string :=
  match o with
  | OpSet k v => <[k := v]> keys
  | _ => keys
  end.

Definition run_op (o : op) (s : state) : state :=
  State (originalRes s) (op_writer o (buffered s)) (c_Res s) (c_Keys s) (c_aborted s)
        (op_keys o (cp_Keys s)) (goroutine s) (ctx_err s) (main s).

(** What the chain has written to its writer once the steps [ops] have run. *)
Definition replay (ops : list op) : bufferedResponseWriter :=
  foldl (fun w o => op_writer o w) newBufferedResponseWriter ops.

(** The body bytes and the status that the steps [ops] write. *)
Definition body_of (ops : list op) : list byte :=
  mjoin (omap (fun o => match o with OpWrite b => Some b | _ => None end) ops).


Definition set_goroutine (t : task) (s : state) : state :=
  State (originalRes s) (buffered s) (c_Res s) (c_Keys s) (c_aborted s)
        (cp_Keys s) t (ctx_err s) (main s).

Definition set_ctx_err (e : ctxErr) (s : state) : state :=
  State (originalRes s) (buffered s) (c_Res s) (c_Keys s) (c_aborted s)
        (cp_Keys s) (goroutine s) (Some e) (main s).

(** The deferred [cancel()]: a context that is not done yet is cancelled. *)
Definition cancel (e : option ctxErr) : option ctxErr :=
  match e with
  | None => Some Canceled
  | Some e => Some e
  end.

(** The number of responses that the case through which the caller has
    left the [select] writes to the sink. *)
Definition written (p : progress) : nat :=
  match p with
  | Returned CaseDone | Returned (CaseCtxDone DeadlineExceeded) => 1
  | Waiting | Returned (CaseCtxDone Canceled) => 0
  end.

Section Executor.

(** [textproto.CanonicalMIMEHeaderKey], [json.Marshal] on a [ginji.H], and
    [Duration.String]. *)
Variable CanonicalMIMEHeaderKey : string -> string.
Variable json_Marshal : gmap string JSON -> list byte.
Variable Duration_String : Z -> string.

(** [h.Add(key, value)] and [h.Set(key, value)] of [http.Header]. *)
Definition Header_Add (h : gmap string (list string)) (key value : string)
  : gmap string (list string) :=
  let key := CanonicalMIMEHeaderKey key in
  <[key := default [] (h !! key) ++ [value]]> h.

Definition Header_Set (h : gmap string (list string)) (key value : string)
  : gmap string (list string) :=
  <[CanonicalMIMEHeaderKey key := [value]]> h.

(** The two nested loops of [copyTo] over the entries of [w.header], in the
    order in which the [range] yields them. *)
Definition copy_headers (entries : list (string * list string))
    (h : gmap string (list string)) : gmap string (list string) :=
  foldl (fun h kv => foldl (fun h vv => Header_Add h kv.1 vv) h kv.2) h entries.

(** [(w *bufferedResponseWriter) copyTo(dst)], where [entries] is the
    order in which the [range] over [w.header] yields its entries. *)
Definition copyTo (w : bufferedResponseWriter) (entries : list (string * list string))
    (dst : ResponseWriter) : ResponseWriter :=
  (* Copy headers *)
  let dst := {| sent_header := copy_headers entries (sent_header dst);
                calls := calls dst |} in
  (* Write status *)
  let dst := rw_WriteHeader dst (status w) in
  (* Write body *)
  rw_Write dst (buf w).

(** An order in which Go may range over a map: any enumeration of its
    entries. *)
Definition ranges (entries : list (string * list string))
    (h : gmap string (list string)) : Prop :=
  entries ≡ₚ map_to_list h.

(** The object that the timeout response carries. *)
Definition timeoutBody (config : TimeoutConfig) : gmap string JSON :=
  {[ "error" := JString (ErrorMessage config);
     "timeout" := JString (Duration_String (Timeout config)) ]}.

(** The response written when the deadline is exceeded. *)
Definition writeTimeout (config : TimeoutConfig) (res : ResponseWriter) : ResponseWriter :=
  let res := {| sent_header := Header_Set (sent_header res) "Content-Type" "application/json";
                calls := calls res |} in
  let res := rw_WriteHeader res (StatusCode config) in
  rw_Write res (json_Marshal (timeoutBody config)).

(** [case <-done:] the handler completed: restore the writer, copy the
    buffered response, abort the chain, return (the deferred [cancel()]
    runs). *)
Definition case_done (entries : list (string * list string)) (s : state) : state :=
  {| originalRes := copyTo (buffered s) entries (originalRes s);
     buffered := buffered s;
     c_Res := Original;
     c_Keys := c_Keys s;
     c_aborted := true;
     cp_Keys := cp_Keys s;
     goroutine := goroutine s;
     ctx_err := cancel (ctx_err s);
     main := Returned CaseDone |}.

(** [case <-ctx.Done():] restore the writer, write the timeout response if
    [ctx.Err() == context.DeadlineExceeded], abort the chain, return. *)
Definition case_ctx_done (config : TimeoutConfig) (err : ctxErr) (s : state) : state :=
  {| originalRes := match err with
                    | DeadlineExceeded => writeTimeout config (originalRes s)
                    | Canceled => originalRes s
                    end;
     buffered := buffered s;
     c_Res := Original;
     c_Keys := c_Keys s;
     c_aborted := true;
     cp_Keys := cp_Keys s;
     goroutine := goroutine s;
     ctx_err := Some err;
     main := Returned (CaseCtxDone err) |}.

(** The interleavings of the two goroutines, the timer of the context and
    the cancellation of the parent context. The goroutine of the handler
    keeps stepping after the caller has returned; a [select] with both
    cases ready may take either. A case of the [select] is one step: the
    caller works on the real writer, which the other goroutine never
    sees, and reads the buffered writer only once that goroutine is past
    [close(done)]. *)
Inductive step (config : TimeoutConfig) : state -> state -> Prop :=
| step_op (s : state) (o : op) (rest : list op) :
    goroutine s = Running (o :: rest) -> o <> OpPanic ->
    step config s (set_goroutine (Running rest) (run_op o s))
| step_panic (s : state) (rest : list op) :
    goroutine s = Running (OpPanic :: rest) ->
    step config s (set_goroutine (unwind true) s)
| step_close (s : state) :
    goroutine s = Running [] ->
    step config s (set_goroutine Closed s)
| step_deadline (s : state) :
    ctx_err s = None ->
    step config s (set_ctx_err DeadlineExceeded s)
| step_cancel (s : state) :
    ctx_err s = None ->
    step config s (set_ctx_err Canceled s)
| step_case_done (s : state) (entries : list (string * list string)) :
    main s = Waiting -> goroutine s = Closed ->
    ranges entries (header (buffered s)) ->
    step config s (case_done entries s)
| step_case_ctx_done (s : state) (err : ctxErr) :
    main s = Waiting -> ctx_err s = Some err ->
    step config s (case_ctx_done config err s).

(** *** The header copy, the invariant and a scheduler: definitions *)

(** [h[key]] of a Go map of slices: the empty slice when the key is not there. *)
Definition values (h : gmap string (list string)) (key : string) : list string :=
  default [] (h !! key).

(** The inner loop of [copyTo]: every value of one entry is added. *)
Definition add_all (h : gmap string (list string)) (key : string) (vs : list string)
  : gmap string (list string) :=
  foldl (fun h vv => Header_Add h key vv) h vs.

(** The values that the entries [entries] bring to the canonical key [c]. *)
Definition brought (entries : list (string * list string)) (c : string) : list string :=
  mjoin ((fun kv => kv.2) <$> filter (fun kv => CanonicalMIMEHeaderKey kv.1 = c) entries).

(** The goroutine has run a panic-free prefix of the chain, and the buffer
    holds what that prefix wrote; no panic gets past the goroutine. *)
Definition task_inv (next : list op) (s : state) : Prop :=
  match goroutine s with
  | Running rest =>
      exists pre, next = pre ++ rest /\ (OpPanic ∉ pre) /\ buffered s = replay pre
  | Closed => (OpPanic ∉ next) /\ buffered s = replay next
  | Recovered =>
      exists pre rest,
        next = pre ++ OpPanic :: rest /\ (OpPanic ∉ pre) /\ buffered s = replay pre
  | Crashed => False
  end.

(** The sink is untouched while the caller waits, and holds the response
    of the case through which the caller returned afterwards. *)
Definition main_inv (config : TimeoutConfig) (res : ResponseWriter) (s : state) : Prop :=
  match main s with
  | Waiting => originalRes s = res /\ c_aborted s = false /\ c_Res s = Buffer
  | Returned CaseDone =>
      goroutine s = Closed
      /\ (exists entries, ranges entries (header (buffered s))
                         /\ originalRes s = copyTo (buffered s) entries res)
      /\ c_aborted s = true /\ c_Res s = Original /\ ctx_err s <> None
  | Returned (CaseCtxDone err) =>
      originalRes s = match err with
                      | DeadlineExceeded => writeTimeout config res
                      | Canceled => res
                      end
      /\ c_aborted s = true /\ c_Res s = Original /\ ctx_err s = Some err
  end.

(** The invariant of a request that entered with the sink [res], the keys
    [keys] and the chain [next]; the keys of [c] are never touched. *)
Definition inv (config : TimeoutConfig) (res : ResponseWriter)
    (keys : gmap string string) (next : list op) (s : state) : Prop :=
  task_inv next s /\ main_inv config res s /\ c_Keys s = keys.

(** The choices of an interleaving: the goroutine of the handler moves,
    the timer fires, the parent context is cancelled, or the [select] of
    the caller takes one of its cases. *)
Inductive event := EvStep | EvDeadline | EvCancel | EvCaseDone | EvCaseCtxDone.

(** The step that the choice [e] leads to, if it is enabled; the [range] of
    [copyTo] takes the order of [map_to_list]. *)
Definition exec (config : TimeoutConfig) (e : event) (s : state) : option state :=
  match e with
  | EvStep =>
      match goroutine s with
      | Running [] => Some (set_goroutine Closed s)
      | Running (OpPanic :: _) => Some (set_goroutine (unwind true) s)
      | Running (o :: rest) => Some (set_goroutine (Running rest) (run_op o s))
      | _ => None
      end
  | EvDeadline =>
      match ctx_err s with
      | None => Some (set_ctx_err DeadlineExceeded s)
      | Some _ => None
      end
  | EvCancel =>
      match ctx_err s with
      | None => Some (set_ctx_err Canceled s)
      | Some _ => None
      end
  | EvCaseDone =>
      match main s, goroutine s with
      | Waiting, Closed => Some (case_done (map_to_list (header (buffered s))) s)
      | _, _ => None
      end
  | EvCaseCtxDone =>
      match main s, ctx_err s with
      | Waiting, Some err => Some (case_ctx_done config err s)
      | _, _ => None
      end
  end.

(** A sequence of choices, from the state [s]. *)
Fixpoint run (config : TimeoutConfig) (es : list event) (s : state) : option state :=
  match es with
  | [] => Some s
  | e :: es =>
      match exec config e s with
      | Some s' => run config es s'
      | None => None
      end
  end.

(** *** What the chain writes *)

Lemma replay_snoc (pre : list op) (o : op) :
  replay (pre ++ [o]) = op_writer o (replay pre).
Proof. unfold replay. by rewrite foldl_snoc. Qed.

(** The buffer holds the bytes of the [Write]s in their order, and the
    status of the last [WriteHeader], or 200 when there was none. *)
Lemma replay_buf (ops : list op) : buf (replay ops) = body_of ops.
Proof.
  induction ops as [|o ops IH] using rev_ind; [done|].
  rewrite replay_snoc. unfold body_of in *. rewrite omap_app, join_app, <- IH.
  destruct o; cbn; by rewrite ?app_nil_r.
Qed.


(** *** The header copy *)

Lemma values_Header_Add (h : gmap string (list string)) (key value c : string) :
  values (Header_Add h key value) c =
    if decide (CanonicalMIMEHeaderKey key = c) then values h c ++ [value] else values h c.
Proof.
  unfold values, Header_Add. cbn zeta.
  case_decide as Hc.
  - subst c. by rewrite lookup_insert_eq.
  - by rewrite lookup_insert_ne.
Qed.

Lemma values_add_all (vs : list string) :
  forall (h : gmap string (list string)) (key c : string),
    values (add_all h key vs) c =
      if decide (CanonicalMIMEHeaderKey key = c) then values h c ++ vs else values h c.
Proof.
  unfold add_all.
  induction vs as [|v vs IH]; intros h key c; cbn [foldl].
  - case_decide; [by rewrite app_nil_r | done].
  - rewrite IH, values_Header_Add.
    case_decide; [by rewrite <- app_assoc | done].
Qed.


Lemma brought_cons (kv : string * list string) (l : list (string * list string)) (c : string) :
  brought (kv :: l) c =
    (if decide (CanonicalMIMEHeaderKey kv.1 = c) then kv.2 else []) ++ brought l c.
Proof.
  unfold brought. rewrite filter_cons. by case_decide.
Qed.

(** Each canonical key ends with what it had, followed by what the
    entries bring to it, in the order of the range. *)
Lemma values_copy_headers (entries : list (string * list string)) :
  forall (h : gmap string (list string)) (c : string),
    values (copy_headers entries h) c = values h c ++ brought entries c.
Proof.
  unfold copy_headers.
  induction entries as [|kv entries IH]; intros h c; cbn [foldl].
  - unfold brought. cbn. by rewrite app_nil_r.
  - rewrite IH, brought_cons. fold (add_all h kv.1 kv.2).
    rewrite values_add_all. case_decide; [by rewrite <- app_assoc | done].
Qed.




(** *** What every interleaving preserves *)

Lemma inv_start (config : TimeoutConfig) (res : ResponseWriter)
    (keys : gmap string string) (next : list op) :
  inv config res keys next (start res keys next).
Proof.
  split; [|by split].
  exists []. split; [done|]. split; [set_solver | done].
Qed.

Lemma inv_step (config : TimeoutConfig) (res : ResponseWriter)
    (keys : gmap string string) (next : list op) (s s' : state) :
  inv config res keys next s -> step config s s' -> inv config res keys next s'.
Proof.
  intros (Ht & Hm & Hk) Hstep. unfold inv, task_inv, main_inv in *.
  destruct Hstep as [s o rest Hg Ho | s rest Hg | s Hg | s He | s He
                     | s entries Hw Hg Hr | s err Hw He]; cbn.
  - rewrite Hg in Ht, Hm. destruct Ht as (pre & -> & Hpre & Hbuf).
    split; [|split; [|done]].
    + exists (pre ++ [o]). rewrite <- app_assoc. split; [done|]. split.
      * rewrite not_elem_of_app. split; [done|].
        intros Heq%list_elem_of_singleton. congruence.
      * by rewrite replay_snoc, Hbuf.
    + destruct (main s) as [|[|err]]; [done| |done].
      by destruct Hm as [? _].
  - rewrite Hg in Ht, Hm. destruct Ht as (pre & -> & Hpre & Hbuf).
    split; [|split; [|done]].
    + by exists pre, rest.
    + destruct (main s) as [|[|err]]; [done| |done].
      by destruct Hm as [? _].
  - rewrite Hg in Ht, Hm. destruct Ht as (pre & -> & Hpre & Hbuf).
    rewrite app_nil_r. split; [done|]. split; [|done].
    destruct (main s) as [|[|err]]; [done| |done].
    by destruct Hm as [? _].
  - split; [done|]. split; [|done].
    destruct (main s) as [|[|err]]; [done| |].
    + by destruct Hm as (_ & _ & _ & _ & ?).
    + destruct Hm as (_ & _ & _ & ?). congruence.
  - split; [done|]. split; [|done].
    destruct (main s) as [|[|err]]; [done| |].
    + by destruct Hm as (_ & _ & _ & _ & ?).
    + destruct Hm as (_ & _ & _ & ?). congruence.
  - rewrite Hw in Hm. rewrite Hg in Ht |- *. destruct Hm as (-> & _ & _).
    split; [done|]. split; [|done].
    split; [done|]. split; [by exists entries|].
    split; [done|]. split; [done|]. by destruct (ctx_err s).
  - rewrite Hw in Hm. destruct Hm as (-> & _ & _).
    split; [done|]. by split.
Qed.

Lemma inv_reachable (config : TimeoutConfig) (res : ResponseWriter)
    (keys : gmap string string) (next : list op) (s : state) :
  rtc (step config) (start res keys next) s -> inv config res keys next s.
Proof.
  revert s. apply rtc_ind_r; [apply inv_start|].
  intros y z _ Hstep IH. by apply (inv_step _ _ _ _ y).
Qed.

Lemma exec_step (config : TimeoutConfig) (e : event) (s s' : state) :
  exec config e s = Some s' -> step config s s'.
Proof.
  destruct e; cbn; intros H.
  - destruct (goroutine s) as [[|o rest]| | |] eqn:Hg; try done.
    + injection H as <-. by apply step_close.
    + destruct o; injection H as <-;
        solve [ by apply step_panic with rest
              | by apply step_op ].
  - destruct (ctx_err s) eqn:He; [done|]. injection H as <-. by apply step_deadline.
  - destruct (ctx_err s) eqn:He; [done|]. injection H as <-. by apply step_cancel.
  - destruct (main s) eqn:Hm; [|done].
    destruct (goroutine s) eqn:Hg; try done.
    injection H as <-. apply step_case_done; [done | done | by unfold ranges].
  - destruct (main s) eqn:Hm; [|done].
    destruct (ctx_err s) as [err|] eqn:He; [|done].
    injection H as <-. by apply step_case_ctx_done.
Qed.

Lemma run_rtc (config : TimeoutConfig) (es : list event) :
  forall s s', run config es s = Some s' -> rtc (step config) s s'.
Proof.
  induction es as [|e es IH]; cbn; intros s s' H.
  - injection H as <-. apply rtc_refl.
  - destruct (exec config e s) as [s1|] eqn:He; [|done].
    eapply rtc_l; [by apply exec_step with e | by apply IH].
Qed.

(** *** Consequences *)

(** While the caller waits, the race can still be decided: the timer
    fires if the context is not done yet, and the [select] takes that
    case. *)
Lemma race_resolves (config : TimeoutConfig) (s : state) :
  main s = Waiting ->
  exists s' err, rtc (step config) s s' /\ main s' = Returned (CaseCtxDone err).
Proof.
  intros Hw. destruct (ctx_err s) as [err|] eqn:He.
  - exists (case_ctx_done config err s), err. split; [|done].
    apply rtc_once. by apply step_case_ctx_done.
  - exists (case_ctx_done config DeadlineExceeded (set_ctx_err DeadlineExceeded s)),
           DeadlineExceeded.
    split; [|done].
    eapply rtc_l; [by apply step_deadline|].
    apply rtc_once. by apply step_case_ctx_done.
Qed.

Lemma responses_copyTo (w : bufferedResponseWriter)
    (entries : list (string * list string)) (res : ResponseWriter) :
  responses (copyTo w entries res) = S (responses res).
Proof.
  unfold responses, copyTo, rw_Write, rw_WriteHeader. cbn.
  rewrite <- app_assoc, List.filter_app, length_app. cbn. lia.
Qed.

Lemma responses_writeTimeout (config : TimeoutConfig) (res : ResponseWriter) :
  responses (writeTimeout config res) = S (responses res).
Proof.
  unfold responses, writeTimeout, rw_Write, rw_WriteHeader. cbn.
  rewrite <- app_assoc, List.filter_app, length_app. cbn. lia.
Qed.

(** A goroutine that a panic has stopped stays stopped: [done] is never
    closed. *)
Lemma recovered_stays (config : TimeoutConfig) (s s' : state) :
  rtc (step config) s s' -> goroutine s = Recovered -> goroutine s' = Recovered.
Proof.
  induction 1 as [|s s1 s' Hstep _ IH]; [done|].
  intros Hg. apply IH.
  destruct Hstep; cbn; congruence.
Qed.

(** Once the caller has returned, it stays returned and the sink stays as
    it is, whatever the goroutine of the handler goes on to do. *)
Lemma returned_stays (config : TimeoutConfig) (s s' : state) (b : branch) :
  rtc (step config) s s' -> main s = Returned b ->
  main s' = Returned b /\ originalRes s' = originalRes s.
Proof.
  induction 1 as [|s s1 s' Hstep _ IH]; [done|].
  intros Hm.
  assert (main s1 = Returned b /\ originalRes s1 = originalRes s) as [Hm1 Hres1].
  { destruct Hstep; cbn; try done; congruence. }
  destruct (IH Hm1) as [? ?]. split; congruence.
Qed.


(** C1, as the code has it. In every interleaving, the sink is untouched
    while the caller waits in the [select]; when the caller has returned it
    has received exactly one response if the handler completed first or
    the deadline expired, and none if the context was cancelled from
    outside; it never receives two: once the caller has returned the sink
    stays as it is, whatever the goroutine of the handler does afterwards.
    The race can always be decided. *)
Theorem one_response_unless_cancelled (config : TimeoutConfig) (res : ResponseWriter)
    (keys : gmap string string) (next : list op) (s : state) :
  rtc (step config) (start res keys next) s ->
  responses (originalRes s) = (responses res + written (main s))%nat
  /\ (main s = Waiting -> originalRes s = res)
  /\ (main s = Returned (CaseCtxDone Canceled) -> originalRes s = res)
  /\ (main s = Waiting ->
       exists s' err, rtc (step config) s s' /\ main s' = Returned (CaseCtxDone err))
  /\ (forall s' b, main s = Returned b -> rtc (step config) s s' ->
       main s' = Returned b /\ originalRes s' = originalRes s).
Proof.
  intros Hrun. apply inv_reachable in Hrun as (_ & Hm & _).
  unfold main_inv in Hm.
  split; [|split; [|split; [|split]]].
  - destruct (main s) as [|[|[|]]]; cbn.
    + destruct Hm as (-> & _). lia.
    + destruct Hm as (_ & (entries & _ & ->) & _).
      rewrite responses_copyTo. lia.
    + destruct Hm as (-> & _). rewrite responses_writeTimeout. lia.
    + destruct Hm as (-> & _). lia.
  - intros Hw. rewrite Hw in Hm. by destruct Hm.
  - intros Hw. rewrite Hw in Hm. by destruct Hm.
  - apply race_resolves.
  - intros s' b Hb Hrun'. by apply (returned_stays config s).
Qed.

(** The defaults leave a positive budget, a non-zero status and a
    non-empty message as they are configured. *)
Lemma setDefaults_configured (config : TimeoutConfig) :
  (0 < Timeout config -> Timeout (setDefaults config) = Timeout config)
  /\ (StatusCode config <> 0 -> StatusCode (setDefaults config) = StatusCode config)
  /\ (ErrorMessage config <> "" -> ErrorMessage (setDefaults config) = ErrorMessage config).
Proof.
  unfold setDefaults; cbn. split; [|split].
  - intros H. destruct (Z.leb_spec (Timeout config) 0); [lia|done].
  - intros H. by destruct (Z.eqb_spec (StatusCode config) 0).
  - intros H. by destruct (String.eqb_spec (ErrorMessage config) "").
Qed.



(** C5, as the code has it. No panic of the chain gets past the goroutine
    that runs it. A chain that panics never closes [done], so the caller
    never leaves the [select] through [done], whatever the chain had
    written to the buffered writer before: the caller gets the timeout
    response when the deadline expires, and no response when the context
    is cancelled from outside. *)
Theorem panic_contained (config : TimeoutConfig) (res : ResponseWriter)
    (keys : gmap string string) (next : list op) (s : state) :
  rtc (step config) (start res keys next) s ->
  OpPanic ∈ next ->
  goroutine s <> Crashed
  /\ goroutine s <> Closed
  /\ main s <> Returned CaseDone
  /\ (main s = Waiting -> originalRes s = res)
  /\ (main s = Returned (CaseCtxDone DeadlineExceeded) ->
       originalRes s = writeTimeout config res)
  /\ (main s = Returned (CaseCtxDone Canceled) -> originalRes s = res)
  /\ (goroutine s = Recovered ->
       forall s', rtc (step config) s s' -> goroutine s' = Recovered).
Proof.
  intros Hrun Hpanic. apply inv_reachable in Hrun as (Ht & Hm & _).
  unfold task_inv in Ht. unfold main_inv in Hm.
  assert (Hnc : goroutine s <> Closed).
  { intros Hg. rewrite Hg in Ht. by destruct Ht as [Hno _]. }
  repeat split.
  - intros Hg. by rewrite Hg in Ht.
  - done.
  - intros Hret. rewrite Hret in Hm. by destruct Hm as [Hg _].
  - intros Hw. rewrite Hw in Hm. by destruct Hm.
  - intros Hret. rewrite Hret in Hm. by destruct Hm.
  - intros Hret. rewrite Hret in Hm. by destruct Hm.
  - intros Hg s' Hrun'. by apply (recovered_stays config s).
Qed.

End Executor.

(** *** The executor on concrete requests

    The library functions are instantiated here: header keys are taken as
    canonical already, an object is printed as its fields in the order of
    the map, and a duration as its number of nanoseconds. The statements
    below do not depend on that choice. *)

Definition printValue (v : JSON) : string :=
  match v with
  | JString s => s
  | JInt n => pretty n
  end.

Definition printObject (obj : gmap string JSON) : list byte :=
  String.list_byte_of_string
    (foldr (fun kv acc => (kv.1 +:+ "=" +:+ printValue kv.2 +:+ ";" +:+ acc)%string)
           EmptyString (map_to_list obj)).

Definition stepLiteral : TimeoutConfig -> state -> state -> Prop :=
  step id printObject RateLimit.printNanos.

Definition runLiteral (config : TimeoutConfig) (es : list event) (s : state) : state :=
  default s (run id printObject RateLimit.printNanos config es s).

(** [Timeout(100 * time.Millisecond)] *)
Definition tenthOfASecond : TimeoutConfig :=
  setDefaults {| Timeout := 100 * Millisecond;
                 ErrorMessage := ErrorMessage DefaultTimeoutConfig;
                 StatusCode := StatusCode DefaultTimeoutConfig;
                 SkipFunc := SkipFunc DefaultTimeoutConfig |}.

(** A sink on which an earlier middleware has set one header. *)
Definition stamped : ResponseWriter :=
  {| sent_header := {[ "X-Request-Id" := ["r1"] ]}; calls := [] |}.

Definition ok : list byte := String.list_byte_of_string "ok".

(** A handler that sets two cookies, then answers 201 with the body [ok]. *)
Definition created : list op :=
  [ OpHeader (fun h => Header_Add id h "Set-Cookie" "a=1");
    OpHeader (fun h => Header_Add id h "Set-Cookie" "b=2");
    OpWriteHeader 201;
    OpWrite ok ].

(** A handler that answers 200 with the body [ok], then panics. *)
Definition faulty : list op := [ OpWriteHeader 200; OpWrite ok; OpPanic ].

(** The handler runs to its end and the [select] takes [done]. *)
Definition completed : state :=
  runLiteral tenthOfASecond [EvStep; EvStep; EvStep; EvStep; EvStep; EvCaseDone]
    (start stamped ∅ created).

(** The handler answers, panics, and the deadline expires. *)
Definition faulted : state :=
  runLiteral tenthOfASecond [EvStep; EvStep; EvStep; EvDeadline; EvCaseCtxDone]
    (start (Sink ∅ []) ∅ faulty).

Lemma runLiteral_rtc (config : TimeoutConfig) (es : list event) (s s' : state) :
  run id printObject RateLimit.printNanos config es s = Some s' ->
  rtc (stepLiteral config) s (runLiteral config es s).
Proof.
  intros H. unfold runLiteral. rewrite H. cbn. by apply run_rtc with es.
Qed.

Example completed_sink :
  originalRes completed =
    {| sent_header := {[ "X-Request-Id" := ["r1"]; "Set-Cookie" := ["a=1"; "b=2"] ]};
       calls := [WriteHeaderCall 201; WriteCall ok] |}.
Proof. vm_compute. reflexivity. Qed.

(** C1 on the run in which the handler completes first. *)
Lemma one_response_unless_cancelled_witness :
  responses (originalRes completed) = (responses stamped + written (main completed))%nat
  /\ (main completed = Waiting -> originalRes completed = stamped)
  /\ (main completed = Returned (CaseCtxDone Canceled) -> originalRes completed = stamped)
  /\ (main completed = Waiting ->
       exists s' err, rtc (stepLiteral tenthOfASecond) completed s'
                      /\ main s' = Returned (CaseCtxDone err))
  /\ (forall s' b, main completed = Returned b ->
       rtc (stepLiteral tenthOfASecond) completed s' ->
       main s' = Returned b /\ originalRes s' = originalRes completed).
Proof.
  apply (one_response_unless_cancelled id printObject RateLimit.printNanos
           tenthOfASecond stamped ∅ created completed).
  eapply runLiteral_rtc. vm_compute. reflexivity.
Defined.

(** The claim of C1 fails when the parent context is cancelled: the
    caller leaves the [select] and the sink has received nothing. *)
Lemma cancelled_request_gets_no_response :
  let s := runLiteral tenthOfASecond [EvStep; EvCancel; EvCaseCtxDone]
             (start (Sink ∅ []) ∅ created) in
  rtc (stepLiteral tenthOfASecond) (start (Sink ∅ []) ∅ created) s
  /\ main s = Returned (CaseCtxDone Canceled)
  /\ originalRes s = Sink ∅ []
  /\ responses (originalRes s) = 0%nat.
Proof.
  cbn zeta. split.
  - eapply runLiteral_rtc. vm_compute. reflexivity.
  - vm_compute. repeat split; reflexivity.
Qed.


Example timeout_sink :
  calls (originalRes (runLiteral tenthOfASecond [EvStep; EvDeadline; EvCaseCtxDone]
                        (start stamped ∅ created)))
  = [WriteHeaderCall 504;
     WriteCall (String.list_byte_of_string "error=Request timeout;timeout=100000000ns;")].
Proof. vm_compute. reflexivity. Qed.


(** C5 on that run. *)
Lemma panic_contained_witness :
  goroutine faulted <> Crashed
  /\ goroutine faulted <> Closed
  /\ main faulted <> Returned CaseDone
  /\ (main faulted = Waiting -> originalRes faulted = Sink ∅ [])
  /\ (main faulted = Returned (CaseCtxDone DeadlineExceeded) ->
       originalRes faulted =
         writeTimeout id printObject RateLimit.printNanos tenthOfASecond (Sink ∅ []))
  /\ (main faulted = Returned (CaseCtxDone Canceled) -> originalRes faulted = Sink ∅ [])
  /\ (goroutine faulted = Recovered ->
       forall s', rtc (stepLiteral tenthOfASecond) faulted s' -> goroutine s' = Recovered).
Proof.
  apply (panic_contained id printObject RateLimit.printNanos
           tenthOfASecond (Sink ∅ []) ∅ faulty faulted).
  - eapply runLiteral_rtc. vm_compute. reflexivity.
  - unfold faulty. set_solver.
Defined.

(** The claim of C5 fails on a fault that comes after the response was
    buffered: the buffer holds the answer of the handler, status 200 and
    body [ok], and the caller still gets the timeout response. *)
Lemma buffered_then_panic_times_out :
  rtc (stepLiteral tenthOfASecond) (start (Sink ∅ []) ∅ faulty) faulted
  /\ buffered faulted = Buffered ∅ ok 200
  /\ goroutine faulted = Recovered
  /\ main faulted = Returned (CaseCtxDone DeadlineExceeded)
  /\ calls (originalRes faulted) =
       [WriteHeaderCall 504;
        WriteCall (String.list_byte_of_string "error=Request timeout;timeout=100000000ns;")].
Proof.
  split.
  - eapply runLiteral_rtc. vm_compute. reflexivity.
  - vm_compute. repeat split; reflexivity.
Qed.

End TimeoutMW.

(** ** The locks of [allow] *)

Module AdmitLocks.
Import GoTime RateLimit.

(** Where a goroutine stands in [(rl *rateLimiter) allow]. *)
Inductive pc :=
| AtEntry                    (* before [rl.mu.Lock()] *)
| HoldsDir                   (* [rl.mu] locked, unlock deferred; next: the clock, get or create *)
| AtBucketLock (now : Z)     (* before [b.mu.Lock()] *)
| HoldsBoth (now : Z)        (* [b.mu] locked, unlock deferred; next: the reset check *)
| AfterReset (reset : Z)     (* [resetTime] is set; next: the test [b.tokens > 0] *)
| Taking (reset : Z)         (* the test has passed; next: [b.tokens--] *)
| Returning (v : verdict)    (* the result is set; next: the deferred [b.mu.Unlock()] *)
| ReleasingDir (v : verdict) (* next: the deferred [rl.mu.Unlock()] *)
| Finished (v : verdict).

(** A goroutine that calls [allow(key)]. *)
Record caller := Caller { key : string; pos : pc }.

(** The limiter with its locks and the goroutines that are calling
    [allow] on it: [dir_mu] is the holder of [rl.mu], [bucket_mu] gives
    the holder of the [mu] of each locked bucket, goroutine [i] is
    [callers !! i]. *)
Record world := World {
  limiter : rateLimiter;
  dir_mu : option nat;
  bucket_mu : gmap string nat;
  callers : list caller
}.

(** Get or create bucket. *)
Definition getOrCreate (rl : rateLimiter) (now : Z) (key : string) : rateLimiter :=
  match buckets rl !! key with
  | Some _ => rl
  | None =>
      set_buckets rl (<[key := {| tokens := Max (config rl); lastReset := now |}]> (buckets rl))
  end.

(** Reset bucket if window has passed; the reset time. *)
Definition resetCheck (rl : rateLimiter) (now : Z) (key : string) (b : bucket)
  : rateLimiter * Z :=
  let b := if Window (config rl) <=? Sub now (lastReset b)
           then {| tokens := Max (config rl); lastReset := now |}
           else b in
  (set_buckets rl (<[key := b]> (buckets rl)), Add (lastReset b) (Window (config rl))).

(** [b.tokens > 0] *)
Definition tokensAvailable (b : bucket) : bool := 0 <? tokens b.

(** [b.tokens--; return true, b.tokens, resetTime] *)
Definition takeToken (rl : rateLimiter) (key : string) (b : bucket) (reset : Z)
  : verdict * rateLimiter :=
  let b' := {| tokens := tokens b - 1; lastReset := lastReset b |} in
  (Verdict true (tokens b') reset, set_buckets rl (<[key := b']> (buckets rl))).

(** Goroutine [i] moves on to [c]. *)
Definition set_caller (i : nat) (c : caller) (w : world) : list caller :=
  <[i := c]> (callers w).

(** One step of goroutine [i]. A [Lock] is taken only when the mutex is
    free; [now] is what [time.Now()] returns; the bucket that the pointer
    [b] of the goroutine refers to is the one at its key. *)
Inductive step_of (i : nat) : world -> world -> Prop :=
| lock_dir (w : world) (k : string) :
    callers w !! i = Some (Caller k AtEntry) ->
    dir_mu w = None ->
    step_of i w (World (limiter w) (Some i) (bucket_mu w)
                       (set_caller i (Caller k HoldsDir) w))
| get_or_create (w : world) (k : string) (now : Z) :
    callers w !! i = Some (Caller k HoldsDir) ->
    step_of i w (World (getOrCreate (limiter w) now k) (dir_mu w) (bucket_mu w)
                       (set_caller i (Caller k (AtBucketLock now)) w))
| lock_bucket (w : world) (k : string) (now : Z) :
    callers w !! i = Some (Caller k (AtBucketLock now)) ->
    bucket_mu w !! k = None ->
    step_of i w (World (limiter w) (dir_mu w) (<[k := i]> (bucket_mu w))
                       (set_caller i (Caller k (HoldsBoth now)) w))
| reset_check (w : world) (k : string) (now : Z) (b : bucket) :
    callers w !! i = Some (Caller k (HoldsBoth now)) ->
    buckets (limiter w) !! k = Some b ->
    let r := resetCheck (limiter w) now k b in
    step_of i w (World r.1 (dir_mu w) (bucket_mu w)
                       (set_caller i (Caller k (AfterReset r.2)) w))
| token_test (w : world) (k : string) (reset : Z) (b : bucket) :
    callers w !! i = Some (Caller k (AfterReset reset)) ->
    buckets (limiter w) !! k = Some b ->
    step_of i w (World (limiter w) (dir_mu w) (bucket_mu w)
                       (set_caller i
                          (Caller k (if tokensAvailable b then Taking reset
                                     else Returning (Verdict false 0 reset))) w))
| take_token (w : world) (k : string) (reset : Z) (b : bucket) :
    callers w !! i = Some (Caller k (Taking reset)) ->
    buckets (limiter w) !! k = Some b ->
    let r := takeToken (limiter w) k b reset in
    step_of i w (World r.2 (dir_mu w) (bucket_mu w)
                       (set_caller i (Caller k (Returning r.1)) w))
| unlock_bucket (w : world) (k : string) (v : verdict) :
    callers w !! i = Some (Caller k (Returning v)) ->
    step_of i w (World (limiter w) (dir_mu w) (delete k (bucket_mu w))
                       (set_caller i (Caller k (ReleasingDir v)) w))
| unlock_dir (w : world) (k : string) (v : verdict) :
    callers w !! i = Some (Caller k (ReleasingDir v)) ->
    step_of i w (World (limiter w) None (bucket_mu w)
                       (set_caller i (Caller k (Finished v)) w)).

Definition step (w w' : world) : Prop := exists i, step_of i w w'.

(** Nobody has started: both kinds of lock are free. *)
Definition initial (w : world) : Prop :=
  dir_mu w = None /\ bucket_mu w = ∅ /\ Forall (fun c => pos c = AtEntry) (callers w).

(** Between [rl.mu.Lock()] and the deferred [rl.mu.Unlock()]. *)
Definition in_allow (p : pc) : bool :=
  match p with
  | HoldsDir | AtBucketLock _ | HoldsBoth _ | AfterReset _ | Taking _
  | Returning _ | ReleasingDir _ => true
  | AtEntry | Finished _ => false
  end.

(** Between [b.mu.Lock()] and the deferred [b.mu.Unlock()]: the reset
    check, the token check and the decrement. *)
Definition in_bucket (p : pc) : bool :=
  match p with
  | HoldsBoth _ | AfterReset _ | Taking _ | Returning _ => true
  | _ => false
  end.

(** What the goroutine knows about its bucket where it stands: from the
    lookup on, the bucket is there; after the reset check, [resetTime] is
    its window start plus the window; before the decrement, it has a
    token. *)
Definition knows (rl : rateLimiter) (c : caller) : Prop :=
  match pos c with
  | AtBucketLock _ | HoldsBoth _ => is_Some (buckets rl !! key c)
  | AfterReset reset =>
      exists b, buckets rl !! key c = Some b
                /\ reset = lastReset b + Window (config rl)
  | Taking reset =>
      exists b, buckets rl !! key c = Some b
                /\ reset = lastReset b + Window (config rl)
                /\ 0 < tokens b
  | _ => True
  end.

(** A goroutine is inside [allow] exactly when it holds [rl.mu], inside
    the bucket part exactly when it holds the [mu] of its bucket, and
    what it knows about its bucket is true. *)
Definition lock_inv (w : world) : Prop :=
  forall i c, callers w !! i = Some c ->
    (in_allow (pos c) = true <-> dir_mu w = Some i)
    /\ (in_bucket (pos c) = true <-> bucket_mu w !! key c = Some i)
    /\ knows (limiter w) c.

(** The step that goroutine [i] takes when the clock reads [now], if it
    can take one. *)
Definition exec (i : nat) (now : Z) (w : world) : option world :=
  match callers w !! i with
  | Some (Caller k AtEntry) =>
      match dir_mu w with
      | None => Some (World (limiter w) (Some i) (bucket_mu w)
                            (set_caller i (Caller k HoldsDir) w))
      | Some _ => None
      end
  | Some (Caller k HoldsDir) =>
      Some (World (getOrCreate (limiter w) now k) (dir_mu w) (bucket_mu w)
                  (set_caller i (Caller k (AtBucketLock now)) w))
  | Some (Caller k (AtBucketLock t)) =>
      match bucket_mu w !! k with
      | None => Some (World (limiter w) (dir_mu w) (<[k := i]> (bucket_mu w))
                            (set_caller i (Caller k (HoldsBoth t)) w))
      | Some _ => None
      end
  | Some (Caller k (HoldsBoth t)) =>
      match buckets (limiter w) !! k with
      | Some b =>
          let r := resetCheck (limiter w) t k b in
          Some (World r.1 (dir_mu w) (bucket_mu w)
                      (set_caller i (Caller k (AfterReset r.2)) w))
      | None => None
      end
  | Some (Caller k (AfterReset reset)) =>
      match buckets (limiter w) !! k with
      | Some b =>
          Some (World (limiter w) (dir_mu w) (bucket_mu w)
                      (set_caller i
                         (Caller k (if tokensAvailable b then Taking reset
                                    else Returning (Verdict false 0 reset))) w))
      | None => None
      end
  | Some (Caller k (Taking reset)) =>
      match buckets (limiter w) !! k with
      | Some b =>
          let r := takeToken (limiter w) k b reset in
          Some (World r.2 (dir_mu w) (bucket_mu w)
                      (set_caller i (Caller k (Returning r.1)) w))
      | None => None
      end
  | Some (Caller k (Returning v)) =>
      Some (World (limiter w) (dir_mu w) (delete k (bucket_mu w))
                  (set_caller i (Caller k (ReleasingDir v)) w))
  | Some (Caller k (ReleasingDir v)) =>
      Some (World (limiter w) None (bucket_mu w)
                  (set_caller i (Caller k (Finished v)) w))
  | Some (Caller _ (Finished _)) | None => None
  end.

(** A schedule: which goroutine moves, and what the clock reads then. *)
Fixpoint run (schedule : list (nat * Z)) (w : world) : option world :=
  match schedule with
  | [] => Some w
  | (i, now) :: rest =>
      match exec i now w with
      | Some w' => run rest w'
      | None => None
      end
  end.

(** Two goroutines call [allow] at the same time, for the keys [a] and [b]. *)
Definition twoCallers : world :=
  {| limiter := {| buckets := ∅; config := RateLimit_config 5 Second |};
     dir_mu := None; bucket_mu := ∅;
     callers := [Caller "a" AtEntry; Caller "b" AtEntry] |}.

(** Goroutine 0 has passed the token check and is about to decrement. *)
Definition firstInside : world :=
  {| limiter := {| buckets := {[ "a" := Bucket 5 0 ]}; config := RateLimit_config 5 Second |};
     dir_mu := Some 0%nat; bucket_mu := {[ "a" := 0%nat ]};
     callers := [Caller "a" (Taking (0 + Second)); Caller "b" AtEntry] |}.

(** *** What the locks guarantee *)


Lemma lookup_set_caller (w : world) (i j : nat) (c c' : caller) :
  is_Some (callers w !! i) ->
  set_caller i c w !! j = Some c' ->
  (j = i /\ c' = c) \/ (j <> i /\ callers w !! j = Some c').
Proof.
  intros Hi Hj. unfold set_caller in Hj.
  destruct (decide (j = i)) as [->|Hne].
  - left. split; [done|].
    rewrite list_lookup_insert_eq in Hj by (by apply lookup_lt_is_Some). congruence.
  - right. split; [done|]. by rewrite list_lookup_insert_ne in Hj.
Qed.

(** Outside [allow] a goroutine assumes nothing about the buckets. *)
Lemma knows_outside (rl : rateLimiter) (c : caller) :
  in_allow (pos c) = false -> knows rl c.
Proof. unfold knows. by destruct (pos c). Qed.

(** While one goroutine is inside [allow], the others are outside. *)
Lemma others_outside (w : world) (i j : nat) (ci cj : caller) :
  lock_inv w ->
  callers w !! i = Some ci -> in_allow (pos ci) = true ->
  callers w !! j = Some cj -> j <> i ->
  in_allow (pos cj) = false.
Proof.
  intros Hinv Hi Hin Hj Hne.
  destruct (Hinv i ci Hi) as [Hdi _]. destruct (Hinv j cj Hj) as [Hdj _].
  destruct (in_allow (pos cj)) eqn:Hinj; [|done].
  apply Hdi in Hin. rewrite (proj1 Hdj eq_refl) in Hin. congruence.
Qed.

Lemma lock_inv_initial (w : world) : initial w -> lock_inv w.
Proof.
  intros (Hd & Hb & Hall) i c Hi.
  rewrite Forall_lookup in Hall. unfold knows.
  rewrite (Hall i c Hi), Hd, Hb, lookup_empty. cbn.
  split; [|split]; [split; discriminate | split; discriminate | done].
Qed.

Lemma lock_inv_step (w w' : world) : lock_inv w -> step w w' -> lock_inv w'.
Proof.
  intros Hinv [i0 Hstep] j c' Hj.
  destruct Hstep as [w k Hi Hfree | w k now Hi | w k now Hi Hfree
                     | w k now b Hi Hbk r | w k reset b Hi Hbk
                     | w k reset b Hi Hbk r | w k v Hi | w k v Hi];
    cbn [callers dir_mu bucket_mu limiter] in *;
    pose proof (Hinv i0 _ Hi) as (Hd0 & Hb0 & Hk0);
    pose proof (others_outside w i0 j _ c' Hinv Hi) as Hout;
    cbn [pos key in_allow in_bucket] in Hd0, Hb0, Hout;
    unfold knows in Hk0; cbn [pos key] in Hk0;
    (apply lookup_set_caller in Hj as [[-> ->]|[Hne Hj]]; [| |by eexists]);
    try (destruct (Hinv j c' Hj) as (Hdj & Hbj & Hkj));
    cbn [pos key in_allow in_bucket].
  - (* lock_dir, the goroutine itself *)
    split; [done|]. by split.
  - (* lock_dir, another goroutine *)
    split; [|by split]. rewrite Hdj, Hfree. split; [done|]. intros [=]. congruence.
  - (* get_or_create, the goroutine itself *)
    split; [done|]. split; [done|]. unfold knows, getOrCreate. cbn.
    destruct (buckets (limiter w) !! k) eqn:Hbk; cbn.
    + by rewrite Hbk.
    + by rewrite lookup_insert_eq.
  - (* get_or_create, another goroutine *)
    split; [done|]. split; [done|]. apply knows_outside. by apply Hout.
  - (* lock_bucket, the goroutine itself *)
    split; [done|]. split; [|done]. by rewrite lookup_insert_eq.
  - (* lock_bucket, another goroutine *)
    split; [done|]. split; [|done]. rewrite Hbj.
    destruct (decide (k = key c')) as [<-|Hk].
    + rewrite lookup_insert_eq, Hfree. split; [done|]. intros [=]. congruence.
    + by rewrite lookup_insert_ne.
  - (* reset_check, the goroutine itself *)
    split; [done|]. split; [done|]. unfold knows. cbn.
    eexists. rewrite lookup_insert_eq. by split.
  - (* reset_check, another goroutine *)
    split; [done|]. split; [done|]. apply knows_outside. by apply Hout.
  - (* token_test, the goroutine itself *)
    destruct Hk0 as (b0 & Hb0' & Hreset).
    assert (b0 = b) as -> by congruence.
    destruct (tokensAvailable b) eqn:Hav; cbn [pos key in_allow in_bucket].
    + split; [done|]. split; [done|]. unfold knows. cbn.
      exists b. split; [done|]. split; [done|].
      unfold tokensAvailable in Hav. lia.
    + split; [done|]. by split.
  - (* token_test, another goroutine *)
    split; [done|]. by split.
  - (* take_token, the goroutine itself *)
    split; [done|]. by split.
  - (* take_token, another goroutine *)
    split; [done|]. split; [done|]. apply knows_outside. by apply Hout.
  - (* unlock_bucket, the goroutine itself *)
    split; [done|]. split; [|done]. by rewrite lookup_delete_eq.
  - (* unlock_bucket, another goroutine *)
    split; [done|]. split; [|done]. rewrite Hbj.
    destruct (decide (k = key c')) as [<-|Hk].
    + rewrite lookup_delete_eq.
      destruct Hb0 as [Hb0 _]. rewrite (Hb0 eq_refl).
      split; [|done]. intros [=]. congruence.
    + by rewrite lookup_delete_ne.
  - (* unlock_dir, the goroutine itself *)
    split; [done|]. by split.
  - (* unlock_dir, another goroutine *)
    split; [|by split]. rewrite Hdj.
    destruct Hd0 as [Hd0 _]. rewrite (Hd0 eq_refl).
    split; [|done]. intros [=]. congruence.
Qed.

Lemma lock_inv_reachable (w0 w : world) :
  initial w0 -> rtc step w0 w -> lock_inv w.
Proof.
  intros Hinit%lock_inv_initial Hrun.
  induction Hrun as [w|w w1 w2 Hstep _ IH]; [done|].
  apply IH. by apply lock_inv_step with w.
Qed.

(** A goroutine at the entry cannot move while another one is inside. *)
Lemma entry_blocked (w w' : world) (j holder : nat) (cj : caller) :
  callers w !! j = Some cj -> pos cj = AtEntry ->
  dir_mu w = Some holder ->
  ~ step_of j w w'.
Proof.
  intros Hj Hpos Hd Hstep. destruct cj as [k p]. cbn in Hpos. subst p.
  destruct Hstep; congruence.
Qed.

(** C9, as the code has it. In every interleaving of goroutines that call
    [allow]: a goroutine holds [rl.mu] from its [Lock] to the end of the
    call (the unlock is deferred), so also during the reset check, the
    token check and the decrement, where it holds the [mu] of its bucket as
    well; the check and the decrement are atomic: when the decrement runs,
    the bucket still has the token that the check saw; two callers of the
    same key are never both in the bucket part; and two callers are never
    both inside [allow], whatever their keys: a caller at the entry waits
    as long as another one is inside. *)
Theorem admits_serialize (w0 w : world) (i j : nat) (ci cj : caller) :
  initial w0 -> rtc step w0 w ->
  callers w !! i = Some ci -> callers w !! j = Some cj ->
  (in_allow (pos ci) = true -> dir_mu w = Some i)
  /\ (in_bucket (pos ci) = true ->
       bucket_mu w !! key ci = Some i /\ dir_mu w = Some i)
  /\ (forall reset, pos ci = Taking reset ->
       exists b, buckets (limiter w) !! key ci = Some b
                 /\ reset = lastReset b + Window (config (limiter w))
                 /\ 0 < tokens b)
  /\ (i <> j -> key ci = key cj ->
       ~ (in_bucket (pos ci) = true /\ in_bucket (pos cj) = true))
  /\ (i <> j -> ~ (in_allow (pos ci) = true /\ in_allow (pos cj) = true))
  /\ (i <> j -> in_allow (pos ci) = true -> pos cj = AtEntry ->
       forall w', ~ step_of j w w').
Proof.
  intros Hinit Hrun Hi Hj.
  pose proof (lock_inv_reachable w0 w Hinit Hrun) as Hinv.
  destruct (Hinv i ci Hi) as (Hdi & Hbi & Hki).
  destruct (Hinv j cj Hj) as (Hdj & Hbj & _).
  split; [|split; [|split; [|split; [|split]]]].
  - by apply Hdi.
  - intros Hin. split; [by apply Hbi|]. apply Hdi.
    by destruct (pos ci).
  - intros reset Hpos. unfold knows in Hki. by rewrite Hpos in Hki.
  - intros Hne Hkey [Hini Hinj].
    apply Hbi in Hini. apply Hbj in Hinj. rewrite Hkey in Hini. congruence.
  - intros Hne [Hini Hinj].
    apply Hdi in Hini. apply Hdj in Hinj. congruence.
  - intros Hne Hini Hpos w'. apply Hdi in Hini.
    by apply (entry_blocked w w' j i cj).
Qed.

(** *** Two callers of distinct keys *)

Lemma exec_step_of (i : nat) (now : Z) (w w' : world) :
  exec i now w = Some w' -> step_of i w w'.
Proof.
  unfold exec. intros H.
  destruct (callers w !! i) as [[k p]|] eqn:Hi; [|done].
  destruct p as [| |t|t|reset|reset|v|v|v].
  - destruct (dir_mu w) eqn:Hd; [done|]. injection H as <-. by apply lock_dir.
  - injection H as <-. by apply get_or_create.
  - destruct (bucket_mu w !! k) eqn:Hb; [done|]. injection H as <-. by apply lock_bucket.
  - destruct (buckets (limiter w) !! k) as [b|] eqn:Hb; [|done].
    injection H as <-. by apply reset_check.
  - destruct (buckets (limiter w) !! k) as [b|] eqn:Hb; [|done].
    injection H as <-. by apply token_test.
  - destruct (buckets (limiter w) !! k) as [b|] eqn:Hb; [|done].
    injection H as <-. by apply take_token.
  - injection H as <-. by apply unlock_bucket.
  - injection H as <-. by apply unlock_dir.
  - done.
Qed.

Lemma schedule_rtc (schedule : list (nat * Z)) :
  forall w w', run schedule w = Some w' -> rtc step w w'.
Proof.
  induction schedule as [|[i now] rest IH]; cbn; intros w w' H.
  - injection H as <-. apply rtc_refl.
  - destruct (exec i now w) as [w1|] eqn:He; [|done].
    eapply rtc_l; [exists i; by apply exec_step_of with now | by apply IH].
Qed.

Lemma twoCallers_initial : initial twoCallers.
Proof. repeat split. repeat constructor. Qed.

Lemma firstInside_reachable : rtc step twoCallers firstInside.
Proof.
  apply (schedule_rtc (replicate 5 (0%nat, 0))). vm_compute. reflexivity.
Qed.

(** A goroutine alone, from the entry to the return, leaves what [allow]
    computes. *)
Example alone_is_allow :
  run (replicate 8 (0%nat, 0)) twoCallers =
    Some {| limiter := (allow (limiter twoCallers) 0 "a").2;
            dir_mu := None; bucket_mu := ∅;
            callers := [Caller "a" (Finished (allow (limiter twoCallers) 0 "a").1);
                        Caller "b" AtEntry] |}.
Proof. vm_compute. reflexivity. Qed.

(** C9 on that state. *)
Lemma admits_serialize_witness :
  let ci := Caller "a" (Taking (0 + Second)) in
  let cj := Caller "b" AtEntry in
  (in_allow (pos ci) = true -> dir_mu firstInside = Some 0%nat)
  /\ (in_bucket (pos ci) = true ->
       bucket_mu firstInside !! key ci = Some 0%nat /\ dir_mu firstInside = Some 0%nat)
  /\ (forall reset, pos ci = Taking reset ->
       exists b, buckets (limiter firstInside) !! key ci = Some b
                 /\ reset = lastReset b + Window (config (limiter firstInside))
                 /\ 0 < tokens b)
  /\ (0%nat <> 1%nat -> key ci = key cj ->
       ~ (in_bucket (pos ci) = true /\ in_bucket (pos cj) = true))
  /\ (0%nat <> 1%nat -> ~ (in_allow (pos ci) = true /\ in_allow (pos cj) = true))
  /\ (0%nat <> 1%nat -> in_allow (pos ci) = true -> pos cj = AtEntry ->
       forall w', ~ step_of 1 firstInside w').
Proof.
  apply (admits_serialize twoCallers firstInside 0 1
           (Caller "a" (Taking (0 + Second))) (Caller "b" AtEntry)).
  - repeat split. repeat constructor.
  - apply (schedule_rtc (replicate 5 (0%nat, 0))). vm_compute. reflexivity.
  - reflexivity.
  - reflexivity.
Defined.

(** The claim of C9 fails on two callers of distinct keys: while the
    first is between its token check and its decrement it still holds
    [rl.mu], and the second, whose key is another one, cannot enter. *)
Lemma distinct_keys_wait_for_directory_lock :
  initial twoCallers
  /\ rtc step twoCallers firstInside
  /\ callers firstInside !! 0%nat = Some (Caller "a" (Taking (0 + Second)))
  /\ callers firstInside !! 1%nat = Some (Caller "b" AtEntry)
  /\ dir_mu firstInside = Some 0%nat
  /\ (forall w', ~ step_of 1 firstInside w').
Proof.
  split; [apply twoCallers_initial|].
  split; [apply firstInside_reachable|].
  repeat split.
  intros w'. by apply (entry_blocked firstInside w' 1 0 (Caller "b" AtEntry)).
Qed.

End AdmitLocks.

(** ** Arithmetic of [int64]

    [time.Duration] is an [int64]: a product of durations wraps around. *)

Module GoInt64.

(** An [int64] product or sum as Go computes it: modulo 2^64, into the
    range from -2^63 to 2^63 - 1. *)
Definition wrap64 (z : Z) : Z := (z + 2 ^ 63) `mod` 2 ^ 64 - 2 ^ 63.

Lemma wrap64_small (z : Z) : - 2 ^ 63 <= z < 2 ^ 63 -> wrap64 z = z.
Proof. intros Hz. unfold wrap64. rewrite Z.mod_small; lia. Qed.

Lemma wrap64_range (z : Z) : - 2 ^ 63 <= wrap64 z < 2 ^ 63.
Proof. unfold wrap64. pose proof (Z.mod_pos_bound (z + 2 ^ 63) (2 ^ 64)). lia. Qed.

End GoInt64.

(** ** [ratelimit.go]: the sweep, the other constructors, runs over many keys *)

Module RateLimitMore.
Import GoTime GoInt64 Ginji RateLimit.

(** The body of one tick of [(rl *rateLimiter) cleanup], when [time.Now()]
    returns [now]: every bucket with [now.Sub(b.lastReset) > Window*2] is
    deleted from the directory. *)
Definition sweep (rl : rateLimiter) (now : Z) : rateLimiter :=
  set_buckets rl
    (filter (fun kb => ~ wrap64 (Window (config rl) * 2) < Sub now (lastReset kb.2))
            (buckets rl)).

(** [allow] calls for any keys, one after the other: each call is a key
    and the clock reading; the log pairs each key with its verdict. *)
Fixpoint allows (rl : rateLimiter) (calls : list (string * Z))
  : list (string * verdict) * rateLimiter :=
  match calls with
  | [] => ([], rl)
  | (key, now) :: rest =>
      let '(v, rl1) := allow rl now key in
      let '(log, rl2) := allows rl1 rest in
      ((key, v) :: log, rl2)
  end.

(** The verdicts that a log holds for one key, and the clock readings of
    the calls for one key. *)
Definition verdicts_of (key : string) (log : list (string * verdict)) : list verdict :=
  (fun kv => kv.2) <$> filter (fun kv => kv.1 = key) log.

Definition times_of (key : string) (calls : list (string * Z)) : list Z :=
  (fun kt => kt.2) <$> filter (fun kt => kt.1 = key) calls.

(** The number of calls for [key] that a log shows as admitted in the
    window that ends at [reset]. *)
Definition admitted_in (key : string) (reset : Z) (log : list (string * verdict)) : nat :=
  length (filter (fun kv => kv.1 = key /\ allowed kv.2 = true /\ resetTime kv.2 = reset) log).

(** The number of calls for [key] that a log shows as admitted. *)
Definition passed (key : string) (log : list (string * verdict)) : nat :=
  length (filter (fun kv => kv.1 = key /\ allowed kv.2 = true) log).

(** Clock readings that lie less than [window] apart, whatever their order. *)
Definition close_together (window : Z) (times : list Z) : Prop :=
  forall t t', t ∈ times -> t' ∈ times -> t' - t < window.

(** Every bucket holds between 0 and [Max] tokens. *)
Definition bounded (rl : rateLimiter) : Prop :=
  forall key b, buckets rl !! key = Some b -> 0 <= tokens b <= Max (config rl).

(** Every bucket has given out at least one token: a bucket is made, and
    refilled, by a call that takes one. *)
Definition spent_one (rl : rateLimiter) : Prop :=
  forall key b, buckets rl !! key = Some b -> 0 <= tokens b <= Max (config rl) - 1.




Section ByUser.

(** [c.GetString(key)] of ginji: the string stored at the key, empty when
    there is none. *)
Variable GetString : Context -> string -> string.

(** The key function of [RateLimitByUser]. *)
Definition userKeyFunc (userKey : string) (c : Context) : string :=
  let userID := GetString c userKey in
  if negb (String.eqb userID "") then ("user:" +:+ userID)%string
  else defaultKeyFunc c.


End ByUser.

Section Served.

Variable Duration_String : Z -> string.
Variable Format_RFC3339 : Z -> string.

(** Requests that go through the middleware one after the other, each
    with the clock readings of [allow] and of [time.Until]: how each one
    ends, and the limiter afterwards. *)
Fixpoint serves (limiter : rateLimiter) (reqs : list (Z * Z * Context))
  : list flow * rateLimiter :=
  match reqs with
  | [] => ([], limiter)
  | (now, later, c) :: rest =>
      let '(_, limiter1, f) := serve Duration_String Format_RFC3339 limiter now later c in
      let '(flows, limiter2) := serves limiter1 rest in
      (f :: flows, limiter2)
  end.

End Served.

(** The calls of [allow] that the requests lead to: none for a request
    that is skipped. *)
Definition calls_of (config : RateLimiterConfig) (reqs : list (Z * Z * Context))
  : list (string * Z) :=
  omap (fun r => if skips config r.2 then None else Some (keyOf config r.2, r.1.1)) reqs.

Definition is_CallNext (f : flow) : bool :=
  match f with CallNext => true | ReturnNil => false end.

(** The number of requests counted under [key] that went on to the rest
    of the chain. *)
Definition let_through (config : RateLimiterConfig) (key : string)
    (reqs : list (Z * Z * Context)) (flows : list flow) : nat :=
  length (filter (fun rf => skips config rf.1.2 = false /\ keyOf config rf.1.2 = key
                            /\ is_CallNext rf.2 = true)
                 (zip reqs flows)).

(** The tokens that [key] can still take in the window that ends at
    [reset]: those of its bucket when that is the bucket's window, [Max]
    when the window starts later or the key has no bucket, none when the
    bucket has moved on. *)
Definition quota (rl : rateLimiter) (key : string) (reset : Z) : Z :=
  match buckets rl !! key with
  | None => Max (config rl)
  | Some b =>
      if reset =? lastReset b + Window (config rl) then tokens b
      else if lastReset b + Window (config rl) <? reset then Max (config rl)
      else 0
  end.

(** *** What every run of the limiter keeps *)

Lemma Sub_mono (t t' u : Z) : t <= t' -> Sub t u <= Sub t' u.
Proof.
  intros Ht. unfold Sub, maxDuration, minDuration.
  repeat case_match; lia.
Qed.

Lemma Sub_pos (t u : Z) : 0 < Sub t u -> 0 < t - u.
Proof.
  unfold Sub, maxDuration, minDuration.
  repeat case_match; lia.
Qed.

Lemma allows_cons (rl : rateLimiter) (key : string) (now : Z) (rest : list (string * Z)) :
  allows rl ((key, now) :: rest) =
    ((key, (allow rl now key).1) :: (allows (allow rl now key).2 rest).1,
     (allows (allow rl now key).2 rest).2).
Proof.
  cbn [allows]. destruct (allow rl now key) as [v rl1]. cbn [fst snd].
  destruct (allows rl1 rest) as [log rl2]. reflexivity.
Qed.


(** The verdict of a call, and the bucket it leaves, depend on the
    configuration and on the bucket of its key only. *)
Lemma allow_local (rl rl' : rateLimiter) (now : Z) (key : string) :
  config rl = config rl' -> buckets rl !! key = buckets rl' !! key ->
  (allow rl now key).1 = (allow rl' now key).1
  /\ buckets (allow rl now key).2 !! key = buckets (allow rl' now key).2 !! key.
Proof.
  intros Hc Hb. unfold allow. rewrite Hc, Hb.
  repeat case_match; cbn; by rewrite !lookup_insert_eq.
Qed.

(** The four ways a call can go. *)
Lemma allow_cases (rl : rateLimiter) (now : Z) (key : string) :
  0 < Max (config rl) -> 0 < Window (config rl) ->
  let fresh := Bucket (Max (config rl) - 1) now in
  let refilled :=
    (Verdict true (Max (config rl) - 1) (now + Window (config rl)),
     set_buckets rl (<[key := fresh]> (buckets rl))) in
  match buckets rl !! key with
  | None => allow rl now key = refilled
  | Some b =>
      if Window (config rl) <=? Sub now (lastReset b) then allow rl now key = refilled
      else if 0 <? tokens b then
        allow rl now key =
          (Verdict true (tokens b - 1) (lastReset b + Window (config rl)),
           set_buckets rl (<[key := Bucket (tokens b - 1) (lastReset b)]> (buckets rl)))
      else allow rl now key = (Verdict false 0 (lastReset b + Window (config rl)), rl)
  end.
Proof.
  intros Hmax Hwin. cbn zeta.
  destruct (buckets rl !! key) as [[n t0]|] eqn:Hb.
  - cbn [lastReset tokens].
    destruct (Z.leb_spec (Window (config rl)) (Sub now t0)) as [Hout|Hin].
    + by apply (allow_rollover rl now key (Bucket n t0)).
    + destruct (Z.ltb_spec 0 n) as [Hn|Hn].
      * by apply allow_take.
      * by apply (allow_deny rl now key (Bucket n t0)).
  - by apply allow_fresh.
Qed.

Lemma allow_bounded (rl : rateLimiter) (now : Z) (key : string) :
  0 < Max (config rl) -> 0 < Window (config rl) -> bounded rl ->
  bounded (allow rl now key).2
  /\ 0 <= remaining (allow rl now key).1 <= Max (config rl) - 1.
Proof.
  intros Hmax Hwin Hbd.
  pose proof (allow_cases rl now key Hmax Hwin) as Hc. cbn zeta in Hc.
  assert (Hins : forall n t, 0 <= n <= Max (config rl) ->
            bounded (set_buckets rl (<[key := Bucket n t]> (buckets rl)))).
  { intros n t Hn k b. cbn. rewrite lookup_insert.
    case_decide; [intros [= <-]; cbn; lia | apply Hbd]. }
  destruct (buckets rl !! key) as [b|] eqn:Hb.
  - pose proof (Hbd key b Hb) as Hbb.
    destruct (Window (config rl) <=? Sub now (lastReset b)).
    + rewrite Hc. cbn. split; [apply Hins|]; lia.
    + destruct (Z.ltb_spec 0 (tokens b)) as [Hn|Hn].
      * rewrite Hc. cbn. split; [apply Hins|]; lia.
      * rewrite Hc. cbn. split; [done|lia].
  - rewrite Hc. cbn. split; [apply Hins|]; lia.
Qed.

(** X1. Whatever the calls, their keys and the clock readings, every
    bucket of a limiter with a positive [Max] and window keeps between 0
    and [Max] tokens, and every verdict reports between 0 and [Max - 1]
    remaining; the configuration is never changed. *)
Theorem limiter_bounds (calls : list (string * Z)) :
  forall rl : rateLimiter,
    0 < Max (config rl) -> 0 < Window (config rl) -> bounded rl ->
    bounded (allows rl calls).2
    /\ config (allows rl calls).2 = config rl
    /\ Forall (fun kv => 0 <= remaining kv.2 <= Max (config rl) - 1) (allows rl calls).1.
Proof.
  induction calls as [|[key now] rest IH]; intros rl Hmax Hwin Hbd.
  - cbn. split; [done|]. split; [done|]. constructor.
  - rewrite allows_cons. cbn [fst snd].
    destruct (allow_bounded rl now key Hmax Hwin Hbd) as [Hbd1 Hrem].
    pose proof (allow_config rl now key) as Hcfg.
    destruct (IH (allow rl now key).2) as (Hbd2 & Hcfg2 & Hall);
      rewrite ?Hcfg; try done.
    split; [done|]. split; [congruence|].
    constructor; [done|]. by rewrite Hcfg in Hall.
Qed.

Lemma admitted_in_cons (key : string) (reset : Z) (k : string) (v : verdict)
    (log : list (string * verdict)) :
  admitted_in key reset ((k, v) :: log) =
    if decide (k = key /\ allowed v = true /\ resetTime v = reset)
    then S (admitted_in key reset log) else admitted_in key reset log.
Proof. unfold admitted_in. rewrite filter_cons. cbn. by case_decide. Qed.

Lemma quota_other_key (rl : rateLimiter) (now : Z) (key k : string) (reset : Z) :
  k <> key -> quota (allow rl now k).2 key reset = quota rl key reset.
Proof.
  intros Hne. unfold quota.
  by rewrite allow_other_key, allow_config.
Qed.

(** The admissions that a run adds to a window never exceed what the
    bucket allowed in that window before the run. *)
Lemma quota_bound (key : string) (reset : Z) (calls : list (string * Z)) :
  forall rl : rateLimiter,
    0 < Max (config rl) -> 0 < Window (config rl) -> bounded rl ->
    Z.of_nat (admitted_in key reset (allows rl calls).1) <= quota rl key reset.
Proof.
  induction calls as [|[k now] rest IH]; intros rl Hmax Hwin Hbd.
  - cbn. unfold quota. destruct (buckets rl !! key) as [b|] eqn:Hb; [|lia].
    pose proof (Hbd key b Hb). repeat case_match; lia.
  - rewrite allows_cons. cbn [fst]. rewrite admitted_in_cons.
    destruct (allow_bounded rl now k Hmax Hwin Hbd) as [Hbd1 _].
    pose proof (allow_config rl now k) as Hcfg.
    specialize (IH (allow rl now k).2). rewrite Hcfg in IH.
    specialize (IH Hmax Hwin Hbd1).
    destruct (decide (k = key)) as [->|Hne].
    + pose proof (allow_cases rl now key Hmax Hwin) as Hc. cbn zeta in Hc.
      unfold quota in *. rewrite Hcfg in IH.
      destruct (buckets rl !! key) as [[n t0]|] eqn:Hb; cbn [tokens lastReset] in *.
      * pose proof (Hbd key _ Hb) as Hn. cbn in Hn.
        destruct (Z.leb_spec (Window (config rl)) (Sub now t0)) as [Hout|Hin].
        -- assert (0 < now - t0) by (apply Sub_pos; lia).
           rewrite Hc in IH |- *. cbn in IH |- *. rewrite lookup_insert_eq in IH.
           cbn in IH. repeat case_decide; repeat case_match; lia.
        -- destruct (Z.ltb_spec 0 n) as [Hpos|Hneg].
           ++ rewrite Hc in IH |- *. cbn in IH |- *. rewrite lookup_insert_eq in IH.
              cbn in IH. repeat case_decide; repeat case_match; lia.
           ++ rewrite Hc in IH |- *. cbn in IH |- *. rewrite Hb in IH.
              cbn in IH. repeat case_decide; repeat case_match; lia.
      * rewrite Hc in IH |- *. cbn in IH |- *. rewrite lookup_insert_eq in IH.
        cbn in IH. repeat case_decide; repeat case_match; lia.
    + rewrite quota_other_key in IH by done.
      rewrite decide_False by (intros [? _]; done). done.
Qed.

(** X2. However the calls for different keys are interleaved and whatever
    the clock reads, no key is admitted more than [Max] times in one
    window, a window being told by its reset time. *)
Theorem window_quota (rl : rateLimiter) (calls : list (string * Z))
    (key : string) (reset : Z) :
  0 < Max (config rl) -> 0 < Window (config rl) -> bounded rl ->
  Z.of_nat (admitted_in key reset (allows rl calls).1) <= Max (config rl).
Proof.
  intros Hmax Hwin Hbd.
  etrans; [by apply quota_bound|].
  unfold quota. destruct (buckets rl !! key) as [b|] eqn:Hb; [|lia].
  pose proof (Hbd key b Hb). repeat case_match; lia.
Qed.

Lemma isolation_from (key : string) (calls : list (string * Z)) :
  forall rl rl' : rateLimiter,
    config rl = config rl' -> buckets rl !! key = buckets rl' !! key ->
    verdicts_of key (allows rl calls).1 = (admits rl' key (times_of key calls)).1
    /\ buckets (allows rl calls).2 !! key
       = buckets (admits rl' key (times_of key calls)).2 !! key.
Proof.
  induction calls as [|[k now] rest IH]; intros rl rl' Hc Hb.
  - by cbn.
  - rewrite allows_cons. cbn [fst snd]. unfold verdicts_of, times_of in *.
    rewrite !filter_cons. cbn [fst snd].
    destruct (decide (k = key)) as [->|Hne].
    + rewrite !fmap_cons. cbn [fst snd]. rewrite admits_cons. cbn [fst snd].
      destruct (allow_local rl rl' now key Hc Hb) as [Hv Hb1].
      destruct (IH (allow rl now key).2 (allow rl' now key).2) as [IHv IHb];
        [by rewrite !allow_config | done |].
      split; [by rewrite Hv, IHv | done].
    + apply IH; [by rewrite allow_config | by rewrite allow_other_key].
Qed.

(** X3. The calls for other keys change nothing for a key: in any
    interleaved run, the verdicts of the calls for one key, and the bucket
    the run leaves for it, are those of the run of these calls alone. *)
Theorem keys_do_not_interfere (rl : rateLimiter) (calls : list (string * Z)) (key : string) :
  verdicts_of key (allows rl calls).1 = (admits rl key (times_of key calls)).1
  /\ buckets (allows rl calls).2 !! key
     = buckets (admits rl key (times_of key calls)).2 !! key.
Proof. by apply isolation_from. Qed.

Lemma sweep_lookup (rl : rateLimiter) (now : Z) (key : string) :
  buckets (sweep rl now) !! key =
    match buckets rl !! key with
    | Some b =>
        if decide (wrap64 (Window (config rl) * 2) < Sub now (lastReset b))
        then None else Some b
    | None => None
    end.
Proof.
  unfold sweep. cbn. rewrite map_lookup_filter.
  destruct (buckets rl !! key) as [b|]; cbn; [|done].
  by destruct (decide _); rewrite ?option_guard_True, ?option_guard_False by tauto.
Qed.

(** X4. The sweep deletes exactly the buckets whose window started more
    than two windows ago, and, with the window doubled inside [int64] and
    a clock that does not run backwards, no later call can tell: its
    verdict and the bucket it leaves are the same with and without the
    sweep. *)
Theorem sweep_is_invisible (rl : rateLimiter) (now now' : Z) (key : string) :
  0 < Window (config rl) -> Window (config rl) * 2 <= maxDuration ->
  now <= now' ->
  (forall k b, buckets (sweep rl now) !! k = Some b <->
     buckets rl !! k = Some b /\ Sub now (lastReset b) <= Window (config rl) * 2)
  /\ (allow (sweep rl now) now' key).1 = (allow rl now' key).1
  /\ buckets (allow (sweep rl now) now' key).2 !! key
     = buckets (allow rl now' key).2 !! key.
Proof.
  intros Hwin Hdouble Hclock.
  assert (Hw : wrap64 (Window (config rl) * 2) = Window (config rl) * 2).
  { apply wrap64_small. unfold maxDuration in Hdouble. lia. }
  split.
  - intros k b. rewrite sweep_lookup, Hw.
    destruct (buckets rl !! k) as [b0|]; [|by split; [|intros [? _]]].
    case_decide as Hold; split.
    + done.
    + intros [[= ->] ?]. lia.
    + intros [= ->]. split; [done|lia].
    + by intros [? _].
  - pose proof (sweep_lookup rl now key) as Hl. rewrite Hw in Hl.
    destruct (buckets rl !! key) as [b|] eqn:Hb.
    + case_decide as Hold.
      * pose proof (Sub_mono now now' (lastReset b) Hclock) as Hmono.
        unfold allow. rewrite Hl, Hb. cbn.
        rewrite Sub_diag.
        destruct (Z.leb_spec (Window (config rl)) 0) as [?|_]; [lia|].
        destruct (Z.leb_spec (Window (config rl)) (Sub now' (lastReset b))) as [_|?];
          [|lia].
        repeat case_match; cbn; by rewrite !lookup_insert_eq.
      * apply allow_local; [done | by rewrite Hl, Hb].
    + apply allow_local; [done | by rewrite Hl, Hb].
Qed.

(** *** Bursts *)

Lemma Sub_lt (t u w : Z) : 0 < w <= maxDuration -> t - u < w -> Sub t u < w.
Proof.
  unfold Sub, maxDuration, minDuration. intros Hw Hd. repeat case_match; lia.
Qed.

Lemma quota_le_Max (rl : rateLimiter) (key : string) (reset : Z) :
  0 < Max (config rl) -> bounded rl -> quota rl key reset <= Max (config rl).
Proof.
  intros Hmax Hbd. unfold quota.
  destruct (buckets rl !! key) as [b|] eqn:Hb; [|lia].
  pose proof (Hbd key b Hb). repeat case_match; lia.
Qed.

(** While no call comes a window after the start of the bucket's window,
    every call is counted in that window. *)
Lemma admits_stable (key : string) (times : list Z) :
  forall (rl : rateLimiter) (b : bucket),
    0 < Max (config rl) -> 0 < Window (config rl) ->
    buckets rl !! key = Some b ->
    (forall t, t ∈ times -> Sub t (lastReset b) < Window (config rl)) ->
    Forall (fun v => resetTime v = lastReset b + Window (config rl))
           (admits rl key times).1.
Proof.
  induction times as [|t rest IH]; intros rl b Hmax Hwin Hb Hin; [constructor|].
  rewrite admits_cons. cbn [fst snd].
  pose proof (allow_cases rl t key Hmax Hwin) as Hcase. cbn zeta in Hcase.
  rewrite Hb in Hcase.
  destruct (Z.leb_spec (Window (config rl)) (Sub t (lastReset b))) as [Hout|_].
  { assert (Ht : t ∈ t :: rest) by left. specialize (Hin t Ht). lia. }
  assert (Hrest : forall t', t' ∈ rest -> Sub t' (lastReset b) < Window (config rl)).
  { intros t' Ht'. apply Hin. by right. }
  destruct (0 <? tokens b); rewrite Hcase; cbn [fst snd]; (constructor; [done|]).
  - apply (IH (set_buckets rl (<[key := Bucket (tokens b - 1) (lastReset b)]> (buckets rl)))
              (Bucket (tokens b - 1) (lastReset b))); [done|done| |done].
    cbn. by rewrite lookup_insert_eq.
  - by apply (IH rl b).
Qed.

(** After a call that starts a window, calls less than a window apart
    from it are counted in that window. *)
Lemma admits_after_refill (key : string) (t : Z) (rest : list Z) (rl : rateLimiter) :
  0 < Max (config rl) -> 0 < Window (config rl) <= maxDuration ->
  close_together (Window (config rl)) (t :: rest) ->
  Forall (fun v => resetTime v = t + Window (config rl))
         (admits (set_buckets rl (<[key := Bucket (Max (config rl) - 1) t]> (buckets rl)))
                 key rest).1.
Proof.
  intros Hmax Hwin Hclose.
  apply (admits_stable key rest
           (set_buckets rl (<[key := Bucket (Max (config rl) - 1) t]> (buckets rl)))
           (Bucket (Max (config rl) - 1) t)); [done|cbn; lia| |].
  - cbn. by rewrite lookup_insert_eq.
  - intros t' Ht'. cbn [lastReset config set_buckets].
    apply Sub_lt; [done|]. apply Hclose; [left|by right].
Qed.

(** Calls that lie less than a window apart are counted in at most two
    windows: that of the bucket, and the one that the first call past it
    opens. *)
Lemma admits_two (key : string) (times : list Z) :
  forall (rl : rateLimiter) (b : bucket),
    0 < Max (config rl) -> 0 < Window (config rl) <= maxDuration ->
    buckets rl !! key = Some b ->
    close_together (Window (config rl)) times ->
    exists r2,
      Forall (fun v => resetTime v = lastReset b + Window (config rl) \/ resetTime v = r2)
             (admits rl key times).1.
Proof.
  induction times as [|t rest IH]; intros rl b Hmax Hwin Hb Hclose.
  { exists 0. constructor. }
  rewrite admits_cons. cbn [fst snd].
  pose proof (allow_cases rl t key Hmax (proj1 Hwin)) as Hcase. cbn zeta in Hcase.
  rewrite Hb in Hcase.
  assert (Hrest : close_together (Window (config rl)) rest).
  { intros t1 t2 H1 H2. apply Hclose; by right. }
  destruct (Z.leb_spec (Window (config rl)) (Sub t (lastReset b))) as [Hout|_].
  - exists (t + Window (config rl)). rewrite Hcase. cbn [fst snd].
    constructor; [by right|].
    eapply Forall_impl; [by apply admits_after_refill|].
    intros v Hv. right. exact Hv.
  - destruct (0 <? tokens b); rewrite Hcase; cbn [fst snd].
    + destruct (IH (set_buckets rl (<[key := Bucket (tokens b - 1) (lastReset b)]> (buckets rl)))
                  (Bucket (tokens b - 1) (lastReset b))) as [r2 Hr2]; [done|done| |done|].
      { cbn. by rewrite lookup_insert_eq. }
      exists r2. constructor; [by left|done].
    + destruct (IH rl b) as [r2 Hr2]; [done..|].
      exists r2. constructor; [by left|done].
Qed.

Lemma admits_two_windows (key : string) (times : list Z) (rl : rateLimiter) :
  0 < Max (config rl) -> 0 < Window (config rl) <= maxDuration ->
  close_together (Window (config rl)) times ->
  exists r1 r2,
    Forall (fun v => resetTime v = r1 \/ resetTime v = r2) (admits rl key times).1.
Proof.
  intros Hmax Hwin Hclose.
  destruct (buckets rl !! key) as [b|] eqn:Hb.
  - destruct (admits_two key times rl b Hmax Hwin Hb Hclose) as [r2 Hr2].
    by exists (lastReset b + Window (config rl)), r2.
  - destruct times as [|t rest]; [exists 0, 0; constructor|].
    exists (t + Window (config rl)), (t + Window (config rl)).
    rewrite admits_cons. cbn [fst snd].
    rewrite (allow_fresh rl t key Hb Hmax (proj1 Hwin)). cbn [fst snd].
    constructor; [by left|].
    eapply Forall_impl; [by apply admits_after_refill|].
    intros v Hv. left. exact Hv.
Qed.

Lemma passed_two (key : string) (r1 r2 : Z) (log : list (string * verdict)) :
  Forall (fun v => resetTime v = r1 \/ resetTime v = r2) (verdicts_of key log) ->
  (passed key log <= admitted_in key r1 log + admitted_in key r2 log)%nat.
Proof.
  unfold passed, verdicts_of.
  induction log as [|[k v] log IH]; intros Hall; [done|].
  rewrite admitted_in_cons, admitted_in_cons, filter_cons.
  rewrite filter_cons in Hall. cbn [fst snd] in *.
  destruct (decide (k = key)) as [->|Hne].
  - rewrite fmap_cons in Hall. apply Forall_cons in Hall as [Hv Hall].
    specialize (IH Hall). cbn [fst snd] in Hv.
    repeat case_decide; cbn [length]; try lia; exfalso; tauto.
  - specialize (IH Hall). repeat case_decide; cbn [length]; try lia; exfalso; tauto.
Qed.

Lemma passed_one (key : string) (r : Z) (log : list (string * verdict)) :
  Forall (fun v => resetTime v = r) (verdicts_of key log) ->
  (passed key log <= admitted_in key r log)%nat.
Proof.
  unfold passed, verdicts_of.
  induction log as [|[k v] log IH]; intros Hall; [done|].
  rewrite admitted_in_cons, filter_cons.
  rewrite filter_cons in Hall. cbn [fst snd] in *.
  destruct (decide (k = key)) as [->|Hne].
  - rewrite fmap_cons in Hall. apply Forall_cons in Hall as [Hv Hall].
    specialize (IH Hall). cbn [fst snd] in Hv.
    repeat case_decide; cbn [length]; try lia; exfalso; tauto.
  - specialize (IH Hall). repeat case_decide; cbn [length]; try lia; exfalso; tauto.
Qed.

Lemma admits_one_window (key : string) (times : list Z) (rl : rateLimiter) :
  0 < Max (config rl) -> 0 < Window (config rl) <= maxDuration ->
  buckets rl !! key = None ->
  close_together (Window (config rl)) times ->
  exists r, Forall (fun v => resetTime v = r) (admits rl key times).1.
Proof.
  intros Hmax Hwin Hb Hclose.
  destruct times as [|t rest]; [exists 0; constructor|].
  exists (t + Window (config rl)).
  rewrite admits_cons. cbn [fst snd].
  rewrite (allow_fresh rl t key Hb Hmax (proj1 Hwin)). cbn [fst snd].
  constructor; [done|]. by apply admits_after_refill.
Qed.

Lemma allow_spent_one (rl : rateLimiter) (now : Z) (key : string) :
  0 < Max (config rl) -> 0 < Window (config rl) -> spent_one rl ->
  spent_one (allow rl now key).2.
Proof.
  intros Hmax Hwin Hsp k b.
  pose proof (allow_cases rl now key Hmax Hwin) as Hcase. cbn zeta in Hcase.
  destruct (buckets rl !! key) as [b0|] eqn:Hb0.
  - pose proof (Hsp key b0 Hb0) as Hb0'.
    destruct (Window (config rl) <=? Sub now (lastReset b0));
      [|destruct (Z.ltb_spec 0 (tokens b0))]; rewrite Hcase; cbn [fst snd buckets config set_buckets].
    + destruct (decide (k = key)) as [->|Hne].
      * rewrite lookup_insert_eq. intros [= <-]. cbn. lia.
      * rewrite lookup_insert_ne by done. apply Hsp.
    + destruct (decide (k = key)) as [->|Hne].
      * rewrite lookup_insert_eq. intros [= <-]. cbn. lia.
      * rewrite lookup_insert_ne by done. apply Hsp.
    + apply Hsp.
  - rewrite Hcase. cbn [fst snd buckets config set_buckets].
    destruct (decide (k = key)) as [->|Hne].
    + rewrite lookup_insert_eq. intros [= <-]. cbn. lia.
    + rewrite lookup_insert_ne by done. apply Hsp.
Qed.

Lemma allows_spent_one (calls : list (string * Z)) :
  forall rl : rateLimiter,
    0 < Max (config rl) -> 0 < Window (config rl) -> spent_one rl ->
    spent_one (allows rl calls).2 /\ config (allows rl calls).2 = config rl.
Proof.
  induction calls as [|[k now] rest IH]; intros rl Hmax Hwin Hsp; [done|].
  rewrite allows_cons. cbn [fst snd].
  destruct (IH (allow rl now k).2) as [IHsp IHc].
  - by rewrite allow_config.
  - by rewrite allow_config.
  - by apply allow_spent_one.
  - split; [done|]. by rewrite IHc, allow_config.
Qed.

Lemma spent_one_bounded (rl : rateLimiter) : spent_one rl -> bounded rl.
Proof. intros Hsp key b Hb. specialize (Hsp key b Hb). lia. Qed.

Lemma close_together_check (window : Z) (times : list Z) :
  forallb (fun t => forallb (fun t' => t' - t <? window) times) times = true ->
  close_together window times.
Proof.
  intros H t t' Ht Ht'. rewrite forallb_forall in H.
  apply list_elem_of_In in Ht, Ht'. specialize (H t Ht).
  rewrite forallb_forall in H. specialize (H t' Ht'). by apply Z.ltb_lt.
Qed.

(** X21. Calls for one key whose clock readings lie less than a window
    apart, in any order and among calls for any other keys, are admitted
    at most twice [Max] times: they are counted in at most two windows. *)
Theorem burst_bound (rl : rateLimiter) (calls : list (string * Z)) (key : string) :
  0 < Max (config rl) -> 0 < Window (config rl) <= maxDuration -> bounded rl ->
  close_together (Window (config rl)) (times_of key calls) ->
  Z.of_nat (passed key (allows rl calls).1) <= 2 * Max (config rl).
Proof.
  intros Hmax Hwin Hbd Hclose.
  destruct (admits_two_windows key (times_of key calls) rl Hmax Hwin Hclose)
    as (r1 & r2 & Htwo).
  destruct (isolation_from key calls rl rl eq_refl eq_refl) as [Hv _].
  rewrite <- Hv in Htwo. apply passed_two in Htwo.
  pose proof (quota_bound key r1 calls rl Hmax (proj1 Hwin) Hbd) as H1.
  pose proof (quota_bound key r2 calls rl Hmax (proj1 Hwin) Hbd) as H2.
  pose proof (quota_le_Max rl key r1 Hmax Hbd).
  pose proof (quota_le_Max rl key r2 Hmax Hbd).
  lia.
Qed.

(** *** The defaults and the key functions *)

Lemma LastIndexByte_port (host port : string) :
  LastIndexByte port ":" = None ->
  LastIndexByte (host +:+ ":" +:+ port) ":" = Some (String.length host).
Proof.
  intros Hport. induction host as [|a host IH].
  - change (LastIndexByte (String ":" port) ":" = Some 0%nat).
    cbn [LastIndexByte]. by rewrite Hport.
  - change (LastIndexByte (String a (host +:+ ":" +:+ port)) ":"
            = Some (S (String.length host))).
    cbn [LastIndexByte]. by rewrite IH.
Qed.

Lemma substring_host (host rest : string) :
  String.substring 0 (String.length host) (host +:+ rest) = host.
Proof.
  induction host as [|a host IH].
  - by destruct rest.
  - change (String.substring 0 (S (String.length host)) (String a (host +:+ rest))
            = String a host).
    cbn [String.substring]. by rewrite IH.
Qed.

Lemma index_comma (first rest : string) :
  String.index 0 "," first = None ->
  String.index 0 "," (first +:+ "," +:+ rest) = Some (String.length first).
Proof.
  induction first as [|a first IH]; intros Hfirst.
  - change (String.index 0 "," (String "," rest) = Some 0%nat).
    cbn [String.index String.prefix]. destruct (ascii_dec "," ","); [|done].
    by destruct rest.
  - change (String.index 0 "," (String a (first +:+ "," +:+ rest))
            = Some (S (String.length first))).
    cbn [String.index String.prefix] in *.
    destruct (ascii_dec "," a) as [Ha|Ha].
    + by destruct first.
    + destruct (String.index 0 "," first); [done|]. by rewrite IH.
Qed.

Lemma append_comma_nonempty (first rest : string) :
  String.eqb (first +:+ "," +:+ rest) "" = false.
Proof. by destruct first. Qed.




Section Constructors.

Variables IPNet IP : Type.
Variable ParseCIDR : string -> option IPNet.
Variable ParseIP : string -> option IP.
Variable Contains : IPNet -> IP -> bool.
Variable TrimSpace : string -> string.
Variable Duration_String : Z -> string.
Variable Format_RFC3339 : Z -> string.

Local Abbreviation isIPInCIDR := (RateLimit.isIPInCIDR IPNet IP ParseCIDR ParseIP Contains).
Local Abbreviation isTrusted := (RateLimit.isTrusted IPNet IP ParseCIDR ParseIP Contains).
Local Abbreviation untrusted := (RateLimit.untrusted IPNet IP ParseCIDR ParseIP Contains).
Local Abbreviation keyFuncWithTrustedProxies :=
  (RateLimit.keyFuncWithTrustedProxies IPNet IP ParseCIDR ParseIP Contains TrimSpace).
Local Abbreviation setDefaults :=
  (RateLimit.setDefaults IPNet IP ParseCIDR ParseIP Contains TrimSpace Duration_String).
Local Abbreviation newLimiter :=
  (RateLimit.newLimiter IPNet IP ParseCIDR ParseIP Contains TrimSpace Duration_String).
Local Abbreviation serve := (RateLimit.serve Duration_String Format_RFC3339).

Lemma setDefaults_positive (config : RateLimiterConfig) :
  0 < Max (setDefaults config) /\ 0 < Window (setDefaults config).
Proof.
  split; cbn.
  - destruct (Z.leb_spec (Max config) 0); lia.
  - destruct (Z.leb_spec (Window config) 0); [reflexivity|lia].
Qed.

(** X5. Whatever the configuration, the one that [RateLimitWithConfig]
    works with has a positive [Max] and window, a status code, a message
    and a key function; applying the defaults again changes nothing; and
    a field that was set properly is kept. *)
Theorem defaults_are_safe (config : RateLimiterConfig) :
  let cfg := setDefaults config in
  0 < Max cfg /\ 0 < Window cfg /\ StatusCode cfg <> 0
  /\ ErrorMessage cfg <> EmptyString /\ is_Some (KeyFunc cfg)
  /\ setDefaults cfg = cfg
  /\ (0 < Max config -> Max cfg = Max config)
  /\ (0 < Window config -> Window cfg = Window config)
  /\ (StatusCode config <> 0 -> StatusCode cfg = StatusCode config)
  /\ (ErrorMessage config <> EmptyString -> ErrorMessage cfg = ErrorMessage config)
  /\ Headers cfg = Headers config /\ SkipFunc cfg = SkipFunc config.
Proof.
  cbn zeta.
  destruct (setDefaults_positive config) as [Hmax Hwin].
  assert (Hst : StatusCode (setDefaults config) <> 0).
  { cbn. by destruct (Z.eqb_spec (StatusCode config) 0). }
  assert (Hmsg : ErrorMessage (setDefaults config) <> EmptyString).
  { cbn. by destruct (String.eqb_spec (ErrorMessage config) ""). }
  repeat split; try done.
  - unfold RateLimit.setDefaults at 1. cbn [Max Window KeyFunc ErrorMessage StatusCode
      SkipFunc Headers TrustedProxies].
    destruct (Z.leb_spec (Max (setDefaults config)) 0) as [?|_]; [lia|].
    destruct (Z.leb_spec (Window (setDefaults config)) 0) as [?|_]; [lia|].
    destruct (Z.eqb_spec (StatusCode (setDefaults config)) 0) as [?|_]; [done|].
    destruct (String.eqb_spec (ErrorMessage (setDefaults config)) "") as [?|_]; [done|].
    unfold RateLimit.setDefaults.
    cbn [Max Window KeyFunc ErrorMessage StatusCode SkipFunc Headers TrustedProxies].
    f_equal. by destruct (0 <? length (TrustedProxies config))%nat.
  - cbn. intros H. destruct (Z.leb_spec (Max config) 0); [lia|done].
  - cbn. intros H. destruct (Z.leb_spec (Window config) 0); [lia|done].
  - cbn. intros H. by destruct (Z.eqb_spec (StatusCode config) 0).
  - cbn. intros H. by destruct (String.eqb_spec (ErrorMessage config) "").
Qed.

(** X6. The first request that a new limiter sees goes on to the rest of
    the chain, whatever the configuration: a [Max] or a window that is
    zero or negative denies nobody. *)
Theorem first_request_passes (config : RateLimiterConfig) (now later : Z) (c : Context) :
  (serve (newLimiter config) now later c).2 = CallNext
  /\ aborted (serve (newLimiter config) now later c).1.1 = aborted c
  /\ reply (serve (newLimiter config) now later c).1.1 = reply c.
Proof.
  destruct (setDefaults_positive config) as [Hmax Hwin].
  unfold RateLimit.serve, RateLimit.newLimiter. cbn [RateLimit.config].
  destruct (skips (setDefaults config) c); [done|].
  rewrite allow_fresh; [|done..].
  cbn [allowed negb RateLimit.config].
  by destruct (Headers (setDefaults config)).
Qed.

(** X7. A configuration with trusted proxies counts every request under
    the key of [keyFuncWithTrustedProxies], whatever [KeyFunc] it was
    given; a peer that matches no entry is counted under its own address. *)
Theorem trusted_proxies_replace_key_function (config : RateLimiterConfig) (c : Context) :
  TrustedProxies config <> [] ->
  keyOf (setDefaults config) c = keyFuncWithTrustedProxies (TrustedProxies config) c
  /\ (untrusted (TrustedProxies config) (RemoteAddr (Req c)) ->
      keyOf (setDefaults config) c = RemoteAddr (Req c)).
Proof.
  intros Hne.
  assert (Hkey : keyOf (setDefaults config) c
                 = keyFuncWithTrustedProxies (TrustedProxies config) c).
  { unfold keyOf, RateLimit.setDefaults. cbn [KeyFunc].
    by destruct (TrustedProxies config). }
  split; [done|]. intros Hun. rewrite Hkey.
  unfold RateLimit.keyFuncWithTrustedProxies.
  by rewrite (isTrusted_untrusted _ _ _ _ _ _ _ Hun).
Qed.

Section Users.

Variable GetString : Context -> string -> string.


End Users.

(** X22. The key of a request that comes from a trusted proxy: the part
    of [X-Forwarded-For] before its first comma, with surrounding white
    space trimmed; the whole header, untrimmed, when it has no comma;
    [X-Real-IP] when [X-Forwarded-For] is empty; the address of the proxy
    when both are empty. *)
Theorem forwarded_key (trustedProxies : list string) (c : Context) (first rest : string) :
  isTrusted trustedProxies (RemoteAddr (Req c)) = true ->
  String.index 0 "," first = None ->
  let key := keyFuncWithTrustedProxies trustedProxies c in
  (Header c "X-Forwarded-For" = (first +:+ "," +:+ rest)%string -> key = TrimSpace first)
  /\ (Header c "X-Forwarded-For" = first -> first <> EmptyString -> key = first)
  /\ (Header c "X-Forwarded-For" = EmptyString -> Header c "X-Real-IP" <> EmptyString ->
      key = Header c "X-Real-IP")
  /\ (Header c "X-Forwarded-For" = EmptyString -> Header c "X-Real-IP" = EmptyString ->
      key = RemoteAddr (Req c)).
Proof.
  intros Htrusted Hfirst. cbn zeta.
  unfold RateLimit.keyFuncWithTrustedProxies. rewrite Htrusted.
  repeat apply conj.
  - intros ->. rewrite append_comma_nonempty. cbn [negb].
    by rewrite (index_comma first rest Hfirst), substring_host.
  - intros -> Hne. apply String.eqb_neq in Hne. rewrite Hne. cbn [negb].
    by rewrite Hfirst.
  - intros -> Hne. apply String.eqb_neq in Hne. by rewrite Hne.
  - by intros -> ->.
Qed.

(** X9. When no entry of the trusted-proxy list parses as a CIDR block,
    a peer is trusted exactly when its address, port included, is one of
    the entries; any other peer is counted under its own address. *)
Theorem plain_entries_match_literally (trustedProxies : list string) (c : Context) :
  Forall (fun proxy => ParseCIDR proxy = None) trustedProxies ->
  (isTrusted trustedProxies (RemoteAddr (Req c)) = true
   <-> RemoteAddr (Req c) ∈ trustedProxies)
  /\ (RemoteAddr (Req c) ∉ trustedProxies ->
      keyFuncWithTrustedProxies trustedProxies c = RemoteAddr (Req c)).
Proof.
  intros Hplain.
  assert (Hiff : isTrusted trustedProxies (RemoteAddr (Req c)) = true
                 <-> RemoteAddr (Req c) ∈ trustedProxies).
  { unfold RateLimit.isTrusted.
    induction Hplain as [|proxy rest Hproxy _ IH]; cbn [existsb].
    - split; [done|]. by intros ?%elem_of_nil.
    - unfold RateLimit.isIPInCIDR at 1. rewrite Hproxy, orb_diag, orb_true_iff, IH.
      rewrite elem_of_cons, String.eqb_eq. done. }
  split; [done|]. intros Hnot.
  unfold RateLimit.keyFuncWithTrustedProxies.
  destruct (isTrusted trustedProxies (RemoteAddr (Req c))); [|done].
  exfalso. by apply Hnot, Hiff.
Qed.

(** X10. Against an entry that is a CIDR block, [isIPInCIDR] drops what
    follows the last colon of the address and asks whether the rest is an
    IP address inside the block; an address with no colon is taken whole. *)
Theorem cidr_match_ignores_port (host port cidr : string) (ipNet : IPNet) :
  ParseCIDR cidr = Some ipNet ->
  LastIndexByte port ":" = None ->
  isIPInCIDR (host +:+ ":" +:+ port) cidr
  = match ParseIP host with
    | Some ip => Contains ipNet ip
    | None => false
    end
  /\ isIPInCIDR port cidr
     = match ParseIP port with
       | Some ip => Contains ipNet ip
       | None => false
       end.
Proof.
  intros Hcidr Hport. unfold RateLimit.isIPInCIDR. rewrite Hcidr.
  by rewrite (LastIndexByte_port host port Hport), substring_host, Hport.
Qed.

Lemma serve_config (limiter : rateLimiter) (now later : Z) (c : Context) :
  config (serve limiter now later c).1.2 = config limiter.
Proof.
  unfold RateLimit.serve. destruct (skips (config limiter) c); [done|].
  pose proof (allow_config limiter now (keyOf (config limiter) c)) as Hc.
  destruct (allow limiter now (keyOf (config limiter) c)) as [v l]. cbn [fst snd] in *.
  by destruct (negb (allowed v)).
Qed.

Lemma serves_cons (limiter : rateLimiter) (now later : Z) (c : Context)
    (rest : list (Z * Z * Context)) :
  serves Duration_String Format_RFC3339 limiter ((now, later, c) :: rest) =
    ((serve limiter now later c).2
       :: (serves Duration_String Format_RFC3339 (serve limiter now later c).1.2 rest).1,
     (serves Duration_String Format_RFC3339 (serve limiter now later c).1.2 rest).2).
Proof.
  cbn [serves]. destruct (serve limiter now later c) as [[c' l] f]. cbn [fst snd].
  by destruct (serves Duration_String Format_RFC3339 l rest).
Qed.

(** The middleware on a sequence of requests is [allow] on the keys of
    those that are not skipped. *)
Lemma serves_allows (key : string) (reqs : list (Z * Z * Context)) :
  forall limiter : rateLimiter,
    let calls := calls_of (config limiter) reqs in
    (serves Duration_String Format_RFC3339 limiter reqs).2 = (allows limiter calls).2
    /\ let_through (config limiter) key reqs
         (serves Duration_String Format_RFC3339 limiter reqs).1
       = passed key (allows limiter calls).1.
Proof.
  induction reqs as [|[[now later] c] rest IH]; intros limiter; cbn zeta; [done|].
  rewrite serves_cons. cbn [fst snd].
  specialize (IH (serve limiter now later c).1.2). cbn zeta in IH.
  rewrite serve_config in IH. destruct IH as [IHl IHn].
  unfold let_through, passed, calls_of in *. cbn [zip zip_with omap]. csimpl.
  rewrite filter_cons. cbn [fst snd].
  destruct (skips (config limiter) c) eqn:Hskip.
  - assert (Hsame : (serve limiter now later c).1.2 = limiter).
    { unfold RateLimit.serve. by rewrite Hskip. }
    rewrite Hsame in IHl, IHn |- *. rewrite decide_False by (by intros [? _]).
    by split.
  - pose proof (serve_unfold Duration_String Format_RFC3339 limiter now later c Hskip)
      as Hserve. cbn zeta in Hserve.
    assert (Hl : (serve limiter now later c).1.2
                 = (allow limiter now (keyOf (config limiter) c)).2).
    { rewrite Hserve. by destruct (allowed _). }
    assert (Hf : is_CallNext (serve limiter now later c).2
                 = allowed (allow limiter now (keyOf (config limiter) c)).1).
    { rewrite Hserve. by destruct (allowed _). }
    rewrite Hl in IHl, IHn |- *. rewrite allows_cons. cbn [fst snd].
    rewrite filter_cons. cbn [fst snd]. rewrite Hf, IHl. split; [done|].
    destruct (allowed (allow limiter now (keyOf (config limiter) c)).1);
      repeat case_decide; cbn [length]; try (by rewrite IHn); exfalso; tauto.
Qed.

(** X23. A middleware built by [RateLimitWithConfig], whatever the
    configuration and whatever requests it has served before, lets at
    most [2 * Max - 1] requests of one key go on to the rest of the chain
    when they, skipped requests apart, arrive less than a window apart:
    what is left of one window, and the next one. *)
Theorem middleware_burst_bound (config0 : RateLimiterConfig)
    (before burst : list (Z * Z * Context)) (key : string) :
  let cfg := setDefaults config0 in
  let limiter := (serves Duration_String Format_RFC3339 (newLimiter config0) before).2 in
  Window config0 <= maxDuration ->
  close_together (Window cfg) (times_of key (calls_of cfg burst)) ->
  Z.of_nat (let_through cfg key burst (serves Duration_String Format_RFC3339 limiter burst).1)
  <= 2 * Max cfg - 1.
Proof.
  cbn zeta. intros Hfit Hclose.
  destruct (setDefaults_positive config0) as [Hmax Hpos].
  assert (Hwin : 0 < Window (setDefaults config0) <= maxDuration).
  { split; [done|]. cbn. destruct (Z.leb_spec (Window config0) 0); [done|lia]. }
  destruct (serves_allows key before (newLimiter config0)) as [Hl _]. cbn zeta in Hl.
  rewrite Hl. clear Hl.
  set (calls0 := calls_of (config (newLimiter config0)) before).
  destruct (allows_spent_one calls0 (newLimiter config0)) as [Hsp Hcfg]; [done|done| |].
  { intros k b Hb. cbn in Hb. by rewrite lookup_empty in Hb. }
  set (limiter := (allows (newLimiter config0) calls0).2) in *.
  change (config (newLimiter config0)) with (setDefaults config0) in Hcfg.
  rewrite <- Hcfg in Hclose, Hmax, Hpos, Hwin |- *.
  destruct (serves_allows key burst limiter) as [_ Hn]. cbn zeta in Hn. rewrite Hn.
  set (calls := calls_of (config limiter) burst) in *.
  destruct (isolation_from key calls limiter limiter eq_refl eq_refl) as [Hv _].
  pose proof (spent_one_bounded limiter Hsp) as Hbd.
  destruct (buckets limiter !! key) as [b|] eqn:Hb.
  - destruct (admits_two key (times_of key calls) limiter b Hmax Hwin Hb Hclose)
      as [r2 Htwo].
    rewrite <- Hv in Htwo. apply passed_two in Htwo.
    pose proof (quota_bound key (lastReset b + Window (config limiter)) calls limiter
                  Hmax Hpos Hbd) as H1.
    pose proof (quota_bound key r2 calls limiter Hmax Hpos Hbd) as H2.
    pose proof (quota_le_Max limiter key r2 Hmax Hbd).
    unfold quota in H1. rewrite Hb, Z.eqb_refl in H1.
    pose proof (Hsp key b Hb). lia.
  - destruct (admits_one_window key (times_of key calls) limiter Hmax Hwin Hb Hclose)
      as [r Hone].
    rewrite <- Hv in Hone. apply passed_one in Hone.
    pose proof (quota_bound key r calls limiter Hmax Hpos Hbd) as H1.
    pose proof (quota_le_Max limiter key r Hmax Hbd).
    lia.
Qed.

End Constructors.

(** *** The properties at concrete limiters

    The library functions are instantiated as for the claims; for the
    CIDR match, one block, [10.0.0.0/8], is known, an address is kept as
    its text, and containment is a prefix test. *)

Definition tenSlashEight : string -> option string :=
  fun s => if String.eqb s "10.0.0.0/8" then Some "10."%string else None.

Definition textIP : string -> option string := Some.

(** [GetString] over the keys of the modelled context. *)
Definition keysGetString (c : Context) (key : string) : string :=
  default EmptyString (Keys c !! key).

(** Two tokens a second, and calls of two peers. *)
Definition twoPerSecond : rateLimiter := Limiter ∅ (RateLimit_config 2 Second).

Definition mixedCalls : list (string * Z) :=
  [("a", 0); ("b", 1); ("a", 2); ("a", 3); ("b", Second + 5); ("a", Second + 7)]%string.

(** A directory with one bucket last reset at 0 and one at three seconds. *)
Definition staleAndFresh : rateLimiter :=
  Limiter {[ "old"%string := Bucket 0 0; "new"%string := Bucket 1 (3 * Second) ]}
          (RateLimit_config 3 Second).

Lemma twoPerSecond_bounded : bounded twoPerSecond.
Proof. intros key b H. cbn in H. by rewrite lookup_empty in H. Qed.

(** X1 at two tokens a second and six calls of two peers. *)
Lemma limiter_bounds_witness :
  bounded (allows twoPerSecond mixedCalls).2
  /\ config (allows twoPerSecond mixedCalls).2 = config twoPerSecond
  /\ Forall (fun kv => 0 <= remaining kv.2 <= Max (config twoPerSecond) - 1)
            (allows twoPerSecond mixedCalls).1.
Proof.
  apply (limiter_bounds mixedCalls twoPerSecond).
  - reflexivity.
  - reflexivity.
  - apply twoPerSecond_bounded.
Defined.

(** X2 for peer [a] in the window that ends at one second: of its three
    calls there, two are admitted. *)
Lemma window_quota_witness :
  Z.of_nat (admitted_in "a" (0 + Second) (allows twoPerSecond mixedCalls).1)
  <= Max (config twoPerSecond).
Proof.
  apply (window_quota twoPerSecond mixedCalls "a" (0 + Second)).
  - reflexivity.
  - reflexivity.
  - apply twoPerSecond_bounded.
Defined.

Example two_of_three_admitted :
  admitted_in "a" (0 + Second) (allows twoPerSecond mixedCalls).1 = 2%nat
  /\ verdicts_of "a" (allows twoPerSecond mixedCalls).1
     = [Verdict true 1 Second; Verdict true 0 Second; Verdict false 0 Second;
        Verdict true 1 (Second + 7 + Second)].
Proof. by vm_compute. Qed.

(** X4 for a sweep at five seconds and a call one second later. *)
Lemma sweep_is_invisible_witness :
  (forall k b, buckets (sweep staleAndFresh (5 * Second)) !! k = Some b <->
     buckets staleAndFresh !! k = Some b
     /\ Sub (5 * Second) (lastReset b) <= Window (config staleAndFresh) * 2)
  /\ (allow (sweep staleAndFresh (5 * Second)) (6 * Second) "old").1
     = (allow staleAndFresh (6 * Second) "old").1
  /\ buckets (allow (sweep staleAndFresh (5 * Second)) (6 * Second) "old").2 !! "old"
     = buckets (allow staleAndFresh (6 * Second) "old").2 !! "old".
Proof.
  apply (sweep_is_invisible staleAndFresh (5 * Second) (6 * Second) "old").
  - reflexivity.
  - by vm_compute.
  - by vm_compute.
Defined.

Example stale_bucket_swept :
  buckets (sweep staleAndFresh (5 * Second)) !! "old" = None
  /\ buckets (sweep staleAndFresh (5 * Second)) !! "new" = Some (Bucket 1 (3 * Second)).
Proof. by vm_compute. Qed.

(** A peer with a full bucket in the window that started at 0, and its
    calls around the end of that window, among those of another peer. *)
Definition fullBucket : rateLimiter :=
  Limiter {[ "a"%string := Bucket 2 0 ]} (RateLimit_config 2 Second).

Definition aroundTheEdge : list (string * Z) :=
  [("a", 900 * Millisecond); ("b", 920 * Millisecond); ("a", 950 * Millisecond);
   ("a", 990 * Millisecond); ("a", 1000 * Millisecond); ("a", 1050 * Millisecond);
   ("b", 1060 * Millisecond); ("a", 1100 * Millisecond)]%string.

Lemma fullBucket_bounded : bounded fullBucket.
Proof.
  intros key b H. cbn in H. apply lookup_singleton_Some in H as [_ <-]. by cbn.
Qed.

(** X21 on six calls of one peer within a fifth of a second. *)
Lemma burst_bound_witness :
  Z.of_nat (passed "a" (allows fullBucket aroundTheEdge).1) <= 2 * Max (config fullBucket).
Proof.
  apply (burst_bound fullBucket aroundTheEdge "a").
  - reflexivity.
  - by vm_compute.
  - apply fullBucket_bounded.
  - apply close_together_check. reflexivity.
Defined.

(** On a bucket that still holds [Max] tokens the bound is reached: two
    calls use up the old window, two the new one. *)
Example four_in_a_fifth_of_a_second :
  passed "a" (allows fullBucket aroundTheEdge).1 = 4%nat
  /\ (allowed <$> verdicts_of "a" (allows fullBucket aroundTheEdge).1)
     = [true; true; false; true; true; false].
Proof. by vm_compute. Qed.

(** One request of a peer at time 0, then five more around the end of
    the window that the first one has opened. *)
Definition firstRequest : list (Z * Z * Context) :=
  [(0, 0, forwarded "203.0.113.9:4711" "")].

Definition laterRequests : list (Z * Z * Context) :=
  (fun t => (t, t, forwarded "203.0.113.9:4711" "")) <$>
    [900 * Millisecond; 950 * Millisecond; 1000 * Millisecond; 1050 * Millisecond;
     1100 * Millisecond].

(** X23 at two requests a second. *)
Lemma middleware_burst_bound_witness :
  let cfg := RateLimit.setDefaults unit unit literalCIDR literalIP (fun _ _ => false) id
               printNanos (RateLimit_config 2 Second) in
  let limiter := (serves printNanos printNanos
                    (newLimiterLiteral (RateLimit_config 2 Second)) firstRequest).2 in
  Z.of_nat (let_through cfg "203.0.113.9:4711" laterRequests
              (serves printNanos printNanos limiter laterRequests).1)
  <= 2 * Max cfg - 1.
Proof.
  cbn zeta.
  apply (middleware_burst_bound unit unit literalCIDR literalIP (fun _ _ => false) id
           printNanos printNanos (RateLimit_config 2 Second)
           firstRequest laterRequests "203.0.113.9:4711").
  - by vm_compute.
  - apply close_together_check. reflexivity.
Defined.

(** The bound is reached: one request is left of the first window, two
    are let through in the next. *)
Example three_in_a_fifth_of_a_second :
  let limiter := (serves printNanos printNanos
                    (newLimiterLiteral (RateLimit_config 2 Second)) firstRequest).2 in
  (serves printNanos printNanos limiter laterRequests).1
  = [CallNext; ReturnNil; CallNext; CallNext; ReturnNil].
Proof. by vm_compute. Qed.

(** X7 for a per-user configuration that also names a trusted proxy. *)
Lemma trusted_proxies_replace_key_function_witness :
  let config :=
    {| Max := 5; Window := Second;
       KeyFunc := Some (userKeyFunc keysGetString "user");
       ErrorMessage := ""; StatusCode := 0; SkipFunc := None; Headers := true;
       TrustedProxies := ["10.0.0.1"] |} in
  let c := forwarded "203.0.113.9:4711" "198.51.100.7" in
  keyOf (RateLimit.setDefaults unit unit literalCIDR literalIP (fun _ _ => false) id
           printNanos config) c
  = keyFuncLiteral ["10.0.0.1"] c
  /\ (untrusted unit unit literalCIDR literalIP (fun _ _ => false)
        ["10.0.0.1"] "203.0.113.9:4711" ->
      keyOf (RateLimit.setDefaults unit unit literalCIDR literalIP (fun _ _ => false) id
               printNanos config) c
      = "203.0.113.9:4711").
Proof.
  cbn zeta.
  apply (trusted_proxies_replace_key_function unit unit literalCIDR literalIP
           (fun _ _ => false) id printNanos
           {| Max := 5; Window := Second;
              KeyFunc := Some (userKeyFunc keysGetString "user");
              ErrorMessage := ""; StatusCode := 0; SkipFunc := None; Headers := true;
              TrustedProxies := ["10.0.0.1"] |}
           (forwarded "203.0.113.9:4711" "198.51.100.7")).
  discriminate.
Defined.

(** X22 for the proxy [10.0.0.1:4711], on the list with its port. *)
Lemma forwarded_key_witness :
  let c := forwarded "10.0.0.1:4711" "198.51.100.7" in
  let key := keyFuncLiteral ["10.0.0.1:4711"] c in
  (Header c "X-Forwarded-For" = ("198.51.100.7" +:+ "," +:+ " 10.0.0.1")%string ->
   key = id "198.51.100.7"%string)
  /\ (Header c "X-Forwarded-For" = "198.51.100.7"%string ->
      "198.51.100.7"%string <> EmptyString -> key = "198.51.100.7"%string)
  /\ (Header c "X-Forwarded-For" = EmptyString -> Header c "X-Real-IP" <> EmptyString ->
      key = Header c "X-Real-IP")
  /\ (Header c "X-Forwarded-For" = EmptyString -> Header c "X-Real-IP" = EmptyString ->
      key = RemoteAddr (Req c)).
Proof.
  cbn zeta.
  apply (forwarded_key unit unit literalCIDR literalIP (fun _ _ => false) id
           ["10.0.0.1:4711"] (forwarded "10.0.0.1:4711" "198.51.100.7")
           "198.51.100.7" " 10.0.0.1").
  - reflexivity.
  - reflexivity.
Defined.

(** X9 for the list [10.0.0.1] and the peer [10.0.0.1:4711]. *)
Lemma plain_entries_match_literally_witness :
  let c := forwarded "10.0.0.1:4711" "198.51.100.7" in
  (RateLimit.isTrusted unit unit literalCIDR literalIP (fun _ _ => false)
     ["10.0.0.1"] (RemoteAddr (Req c)) = true
   <-> RemoteAddr (Req c) ∈ ["10.0.0.1"%string])
  /\ (RemoteAddr (Req c) ∉ ["10.0.0.1"%string] ->
      keyFuncLiteral ["10.0.0.1"] c = RemoteAddr (Req c)).
Proof.
  cbn zeta.
  apply (plain_entries_match_literally unit unit literalCIDR literalIP
           (fun _ _ => false) id ["10.0.0.1"]
           (forwarded "10.0.0.1:4711" "198.51.100.7")).
  repeat constructor.
Defined.

(** X10 for the block [10.0.0.0/8] and the peer [10.1.2.3:4711]. *)
Lemma cidr_match_ignores_port_witness :
  RateLimit.isIPInCIDR string string tenSlashEight textIP String.prefix
    ("10.1.2.3" +:+ ":" +:+ "4711") "10.0.0.0/8"
  = match textIP "10.1.2.3" with
    | Some ip => String.prefix "10." ip
    | None => false
    end
  /\ RateLimit.isIPInCIDR string string tenSlashEight textIP String.prefix
       "4711" "10.0.0.0/8"
     = match textIP "4711" with
       | Some ip => String.prefix "10." ip
       | None => false
       end.
Proof.
  apply (cidr_match_ignores_port string string tenSlashEight textIP String.prefix
           "10.1.2.3" "4711" "10.0.0.0/8" "10.").
  - reflexivity.
  - reflexivity.
Defined.

Example proxy_in_block_is_trusted :
  RateLimit.isTrusted string string tenSlashEight textIP String.prefix
    ["10.0.0.0/8"] "10.1.2.3:4711" = true
  /\ RateLimit.isTrusted string string tenSlashEight textIP String.prefix
       ["10.0.0.0/8"] "203.0.113.9:4711" = false.
Proof. by vm_compute. Qed.

End RateLimitMore.

(** ** [timeout.go]: the other constructors, the buffered writer, the copy *)

Module TimeoutMore.
Import GoTime GoInt64 Ginji TimeoutMW.

(** The configuration that [Timeout(duration)] hands to
    [TimeoutWithConfig]: the default one with the budget replaced. *)
Definition Timeout_config (duration : Z) : TimeoutConfig :=
  let config := DefaultTimeoutConfig in
  {| Timeout := duration; ErrorMessage := ErrorMessage config;
     StatusCode := StatusCode config; SkipFunc := SkipFunc config |}.

(** [TimeoutSeconds(seconds)] and [TimeoutMinutes(minutes)]: the product
    [time.Duration(n) * time.Second] is an [int64] product. *)
Definition TimeoutSeconds_config (seconds : Z) : TimeoutConfig :=
  Timeout_config (wrap64 (seconds * Second)).

Definition TimeoutMinutes_config (minutes : Z) : TimeoutConfig :=
  Timeout_config (wrap64 (minutes * Minute)).



Definition is_OpWriteHeader (o : op) : bool :=
  match o with OpWriteHeader _ => true | _ => false end.

(** *** The budgets *)

Lemma setDefaults_idem (config : TimeoutConfig) :
  setDefaults (setDefaults config) = setDefaults config.
Proof.
  unfold setDefaults. cbn [Timeout ErrorMessage StatusCode SkipFunc]. f_equal.
  - destruct (Z.leb_spec (Timeout config) 0) as [H|H]; [done|].
    by destruct (Z.leb_spec (Timeout config) 0); [lia|].
  - destruct (String.eqb_spec (ErrorMessage config) "") as [H|H]; [done|].
    by destruct (String.eqb_spec (ErrorMessage config) "").
  - destruct (Z.eqb_spec (StatusCode config) 0) as [H|H]; [done|].
    by destruct (Z.eqb_spec (StatusCode config) 0).
Qed.

(** X11. The budget that [TimeoutWithConfig] works with is always
    positive, and filling in the defaults twice is filling them in once.
    [TimeoutSeconds(n)] gives [n] seconds for [n] from 1 to 9223372036 and
    the default of thirty seconds for [n] from -9223372036 to 0;
    [TimeoutMinutes(n)] gives [n] minutes for [n] from 1 to 153722867 and
    thirty seconds for [n] from -153722867 to 0. Both answer a timeout
    with status 504 and the message [Request timeout]. *)
Theorem timeout_budgets (config : TimeoutConfig) (n : Z) :
  let seconds := setDefaults (TimeoutSeconds_config n) in
  let minutes := setDefaults (TimeoutMinutes_config n) in
  0 < Timeout (setDefaults config)
  /\ setDefaults (setDefaults config) = setDefaults config
  /\ (1 <= n <= 9223372036 -> Timeout seconds = n * Second)
  /\ (-9223372036 <= n <= 0 -> Timeout seconds = 30 * Second)
  /\ (1 <= n <= 153722867 -> Timeout minutes = n * Minute)
  /\ (-153722867 <= n <= 0 -> Timeout minutes = 30 * Second)
  /\ 0 < Timeout seconds <= maxDuration /\ 0 < Timeout minutes <= maxDuration
  /\ StatusCode seconds = 504 /\ StatusCode minutes = 504
  /\ ErrorMessage seconds = "Request timeout"%string
  /\ ErrorMessage minutes = "Request timeout"%string.
Proof.
  cbn zeta. cbn [setDefaults TimeoutSeconds_config TimeoutMinutes_config Timeout_config
    Timeout ErrorMessage StatusCode DefaultTimeoutConfig].
  pose proof (wrap64_range (n * Second)) as Hs.
  pose proof (wrap64_range (n * Minute)) as Hm.
  assert (Hsec : Second = 1000000000) by reflexivity.
  assert (Hmin : Minute = 60000000000) by reflexivity.
  assert (Hmax : maxDuration = 2 ^ 63 - 1) by reflexivity.
  split. { destruct (Z.leb_spec (Timeout config) 0); lia. }
  split. { apply setDefaults_idem. }
  split. { intros Hn. rewrite wrap64_small by lia.
           destruct (Z.leb_spec (n * Second) 0); lia. }
  split. { intros Hn. rewrite wrap64_small by lia.
           destruct (Z.leb_spec (n * Second) 0); lia. }
  split. { intros Hn. rewrite wrap64_small by lia.
           destruct (Z.leb_spec (n * Minute) 0); lia. }
  split. { intros Hn. rewrite wrap64_small by lia.
           destruct (Z.leb_spec (n * Minute) 0); lia. }
  split. { destruct (Z.leb_spec (wrap64 (n * Second)) 0); lia. }
  split. { destruct (Z.leb_spec (wrap64 (n * Minute)) 0); lia. }
  done.
Qed.

(** An [int64] product that wraps below zero falls back to the default. *)
Example seconds_overflow :
  Timeout (setDefaults (TimeoutSeconds_config 9223372037)) = 30 * Second
  /\ Timeout (setDefaults (TimeoutSeconds_config 18446744074)) = 290448384.
Proof. by vm_compute. Qed.

(** *** The buffered writer *)

Lemma replay_app_status (pre post : list op) :
  forallb (fun o => negb (is_OpWriteHeader o)) post = true ->
  status (replay (pre ++ post)) = status (replay pre).
Proof.
  induction post as [|o post IH] using rev_ind; intros Hpost.
  - by rewrite app_nil_r.
  - rewrite forallb_app in Hpost. apply andb_true_iff in Hpost as [Hpost Ho].
    rewrite app_assoc, replay_snoc. cbn in Ho.
    rewrite <- (IH Hpost). by destruct o.
Qed.

(** X12. The buffered writer keeps the status of the last [WriteHeader]
    call, 200 when there is none, and every byte written, whether the
    status was set before or after. *)
Theorem last_status_wins (pre post : list op) (statusCode : Z) :
  forallb (fun o => negb (is_OpWriteHeader o)) post = true ->
  status (replay (pre ++ OpWriteHeader statusCode :: post)) = statusCode
  /\ status (replay post) = 200
  /\ buf (replay (pre ++ OpWriteHeader statusCode :: post)) = buf (replay pre) ++ buf (replay post).
Proof.
  intros Hpost. split; [|split].
  - change (pre ++ OpWriteHeader statusCode :: post)
      with (pre ++ [OpWriteHeader statusCode] ++ post).
    rewrite app_assoc, replay_app_status by done. by rewrite replay_snoc.
  - apply (replay_app_status [] post Hpost).
  - rewrite !replay_buf. unfold body_of.
    rewrite omap_app. cbn [omap]. by rewrite join_app.
Qed.

(** *** The keys, the race and the header copy *)



Lemma lookup_from_values (h1 h2 : gmap string (list string)) (c : string) :
  values h1 c = values h2 c -> (h1 !! c = None <-> h2 !! c = None) -> h1 !! c = h2 !! c.
Proof.
  unfold values. destruct (h1 !! c) as [v1|], (h2 !! c) as [v2|]; cbn; intros Hv Hn.
  - by rewrite Hv.
  - by apply Hn.
  - symmetry. by apply Hn.
  - done.
Qed.

Section Executor.

Variable CanonicalMIMEHeaderKey : string -> string.
Variable json_Marshal : gmap string JSON -> list byte.
Variable Duration_String : Z -> string.

Local Abbreviation step :=
  (TimeoutMW.step CanonicalMIMEHeaderKey json_Marshal Duration_String).
Local Abbreviation writeTimeout :=
  (TimeoutMW.writeTimeout CanonicalMIMEHeaderKey json_Marshal Duration_String).
Local Abbreviation timeoutBody := (TimeoutMW.timeoutBody Duration_String).
Local Abbreviation Header_Add := (TimeoutMW.Header_Add CanonicalMIMEHeaderKey).
Local Abbreviation add_all := (TimeoutMW.add_all CanonicalMIMEHeaderKey).
Local Abbreviation brought := (TimeoutMW.brought CanonicalMIMEHeaderKey).
Local Abbreviation copy_headers := (TimeoutMW.copy_headers CanonicalMIMEHeaderKey).
Local Abbreviation copyTo := (TimeoutMW.copyTo CanonicalMIMEHeaderKey).





(** X14. The response to an expired deadline does not depend on the
    chain: whatever the chain is and has written to the buffered writer
    by then, the sink has its own headers with [Content-Type] set to
    [application/json], and has received the configured status and the
    timeout body, nothing else. *)
Theorem timeout_hides_the_handler (config : TimeoutConfig) (res : ResponseWriter)
    (keys keys' : gmap string string) (next next' : list op) (s s' : state) :
  rtc (step config) (start res keys next) s ->
  rtc (step config) (start res keys' next') s' ->
  main s = Returned (CaseCtxDone DeadlineExceeded) ->
  main s' = Returned (CaseCtxDone DeadlineExceeded) ->
  originalRes s = originalRes s'
  /\ sent_header (originalRes s)
     = <[CanonicalMIMEHeaderKey "Content-Type" := ["application/json"%string]]> (sent_header res)
  /\ calls (originalRes s)
     = calls res ++ [WriteHeaderCall (StatusCode config);
                     WriteCall (json_Marshal (timeoutBody config))].
Proof.
  intros Hs Hs' Hm Hm'.
  apply inv_reachable in Hs as (_ & Hmain & _).
  apply inv_reachable in Hs' as (_ & Hmain' & _).
  unfold main_inv in Hmain, Hmain'. rewrite Hm in Hmain. rewrite Hm' in Hmain'.
  destruct Hmain as (-> & _). destruct Hmain' as (-> & _).
  split; [done|]. split; [done|].
  unfold TimeoutMW.writeTimeout, rw_Write, rw_WriteHeader. cbn. by rewrite <- app_assoc.
Qed.

(** X24. However the middleware returns, it leaves the context in order:
    [c.Res] is the real writer again, the chain is aborted, and the
    context of the request is done, by expiry, by the caller of the
    middleware, or by the deferred [cancel()]. Until it returns, [c.Res]
    is the buffered writer, the chain is not aborted and the real writer
    has not been touched. *)
Theorem return_restores (config : TimeoutConfig) (res : ResponseWriter)
    (keys : gmap string string) (next : list op) (s : state) :
  rtc (step config) (start res keys next) s ->
  match main s with
  | Waiting => c_Res s = Buffer /\ c_aborted s = false /\ originalRes s = res
  | Returned b =>
      c_Res s = Original /\ c_aborted s = true /\ ctx_err s <> None
      /\ (b = CaseDone -> goroutine s = Closed)
      /\ (forall err, b = CaseCtxDone err -> ctx_err s = Some err)
  end.
Proof.
  intros Hreach. apply inv_reachable in Hreach as (_ & Hmain & _).
  unfold main_inv in Hmain. destruct (main s) as [|[|err]].
  - by destruct Hmain as (? & ? & ?).
  - destruct Hmain as (? & _ & ? & ? & ?). by repeat split.
  - destruct Hmain as (_ & ? & ? & Herr). rewrite Herr.
    repeat split; try done. by intros ? [= ->].
Qed.



Lemma add_all_lookup_None (vs : list string) :
  forall (h : gmap string (list string)) (key c : string),
    add_all h key vs !! c = None
    <-> h !! c = None /\ (CanonicalMIMEHeaderKey key <> c \/ vs = []).
Proof.
  induction vs as [|v vs IH]; intros h key c; cbn.
  - split; [intros ?; split; [done|by right] | by intros [? _]].
  - rewrite (IH (Header_Add h key v) key c). unfold TimeoutMW.Header_Add.
    destruct (decide (CanonicalMIMEHeaderKey key = c)) as [<-|Hne].
    + rewrite lookup_insert_eq. split; [by intros [? _]|].
      intros [_ [?|?]]; done.
    + rewrite lookup_insert_ne by done. split.
      * intros [? _]. split; [done|by left].
      * intros [? _]. split; [done|by left].
Qed.

Lemma copy_headers_lookup_None (entries : list (string * list string)) :
  forall (h : gmap string (list string)) (c : string),
    copy_headers entries h !! c = None <-> h !! c = None /\ brought entries c = [].
Proof.
  induction entries as [|kv entries IH]; intros h c.
  - cbn. split; [by intros ?|by intros [? _]].
  - change (copy_headers (kv :: entries) h)
      with (copy_headers entries (add_all h kv.1 kv.2)).
    rewrite IH, add_all_lookup_None, brought_cons, app_nil.
    destruct (decide (CanonicalMIMEHeaderKey kv.1 = c)) as [Heq|Hne].
    + split.
      * intros [[? [?|?]] ?]; done.
      * intros [? [? ?]]. split; [|done]. split; [done|by right].
    + split.
      * intros [[? _] ?]. done.
      * intros [? [_ ?]]. split; [|done]. split; [done|by left].
Qed.

Lemma brought_nil (entries : list (string * list string)) (c : string) :
  brought entries c = []
  <-> Forall (fun kv => CanonicalMIMEHeaderKey kv.1 = c -> kv.2 = []) entries.
Proof.
  induction entries as [|kv entries IH].
  - split; [constructor|done].
  - rewrite brought_cons, app_nil, Forall_cons, IH.
    destruct (decide (CanonicalMIMEHeaderKey kv.1 = c)) as [Heq|Hne].
    + split; [intros [? ?]; by split | intros [H ?]; split; [by apply H|done]].
    + split; [intros [_ ?]; by split | intros [_ ?]; by split].
Qed.

Lemma brought_Permutation (entries1 entries2 : list (string * list string)) (c : string) :
  entries1 ≡ₚ entries2 -> brought entries1 c ≡ₚ brought entries2 c.
Proof. intros Hp. unfold TimeoutMW.brought. by rewrite Hp. Qed.

(** At most one entry of a map goes to a canonical key on which the
    canonical form tells the keys of the map apart. *)
Lemma filter_at_most_one (hb : gmap string (list string)) (c : string) :
  (forall k k', is_Some (hb !! k) -> is_Some (hb !! k') ->
     CanonicalMIMEHeaderKey k = CanonicalMIMEHeaderKey k' -> k = k') ->
  let found := filter (fun kv => CanonicalMIMEHeaderKey kv.1 = c) (map_to_list hb) in
  found = [] \/ exists kv, found = [kv].
Proof.
  intros Hinj found.
  assert (Hnd : NoDup found) by apply NoDup_filter, NoDup_map_to_list.
  assert (Hsame : forall x y, x ∈ found -> y ∈ found -> x = y).
  { intros [k vs] [k' vs'] [Hc Hin]%list_elem_of_filter [Hc' Hin']%list_elem_of_filter.
    cbn in Hc, Hc'. apply elem_of_map_to_list in Hin, Hin'.
    assert (k = k') as <-.
    { apply Hinj; [by eexists|by eexists|congruence]. }
    congruence. }
  destruct found as [|x [|y rest]]; [by left|right; by exists x|].
  exfalso. apply NoDup_cons in Hnd as [Hx _].
  apply Hx. rewrite (Hsame x y); [left|left|right; left].
Qed.

Lemma brought_unique (hb : gmap string (list string))
    (entries1 entries2 : list (string * list string)) (c : string) :
  ranges entries1 hb -> ranges entries2 hb ->
  (forall k k', is_Some (hb !! k) -> is_Some (hb !! k') ->
     CanonicalMIMEHeaderKey k = CanonicalMIMEHeaderKey k' -> k = k') ->
  brought entries1 c = brought entries2 c.
Proof.
  unfold ranges. intros H1 H2 Hinj. unfold TimeoutMW.brought.
  assert (Heq : forall entries, entries ≡ₚ map_to_list hb ->
            filter (fun kv => CanonicalMIMEHeaderKey kv.1 = c) entries
            = filter (fun kv => CanonicalMIMEHeaderKey kv.1 = c) (map_to_list hb)).
  { intros entries Hp.
    assert (Hf : filter (fun kv => CanonicalMIMEHeaderKey kv.1 = c) entries
                 ≡ₚ filter (fun kv => CanonicalMIMEHeaderKey kv.1 = c) (map_to_list hb))
      by (by rewrite Hp).
    destruct (filter_at_most_one hb c Hinj) as [Hnil|[kv Hone]]; cbn zeta in *.
    - rewrite Hnil in Hf |- *. by apply Permutation_nil_r.
    - rewrite Hone in Hf |- *. by apply Permutation_singleton_r. }
  by rewrite (Heq entries1 H1), (Heq entries2 H2).
Qed.

(** X16. The order in which [copyTo] ranges over the buffered headers
    shows at most in the order of the values under one canonical key: two
    orders give the same calls and, under each key, the same values up to
    their order; they give the same sink when no two buffered keys have
    the same canonical form. *)
Theorem copy_order (w : bufferedResponseWriter)
    (entries1 entries2 : list (string * list string)) (dst : ResponseWriter) :
  ranges entries1 (header w) -> ranges entries2 (header w) ->
  calls (copyTo w entries1 dst) = calls (copyTo w entries2 dst)
  /\ (forall c, values (sent_header (copyTo w entries1 dst)) c
                ≡ₚ values (sent_header (copyTo w entries2 dst)) c)
  /\ ((forall k k', is_Some (header w !! k) -> is_Some (header w !! k') ->
         CanonicalMIMEHeaderKey k = CanonicalMIMEHeaderKey k' -> k = k') ->
      copyTo w entries1 dst = copyTo w entries2 dst).
Proof.
  intros H1 H2. split; [done|]. split.
  - intros c. cbn. rewrite !values_copy_headers.
    apply Permutation_app_head, brought_Permutation.
    unfold ranges in *. by rewrite H1, H2.
  - intros Hinj. unfold TimeoutMW.copyTo, rw_Write, rw_WriteHeader. cbn. f_equal.
    apply map_eq. intros c. apply lookup_from_values.
    + rewrite !values_copy_headers. f_equal. by apply (brought_unique (header w)).
    + rewrite !copy_headers_lookup_None.
      by rewrite (brought_unique (header w) entries1 entries2 c).
Qed.

(** X17. [copyTo] takes nothing from the sink: a header key of the sink
    keeps its values, in front of those that the buffered writer adds,
    and a key to which the buffered writer brings no value is as it was,
    absent if it was absent. *)
Theorem copy_keeps_sink_headers (w : bufferedResponseWriter)
    (entries : list (string * list string)) (dst : ResponseWriter) :
  ranges entries (header w) ->
  (forall c vs, sent_header dst !! c = Some vs ->
     exists more, sent_header (copyTo w entries dst) !! c = Some (vs ++ more))
  /\ (forall c,
        (forall k vs, header w !! k = Some vs -> CanonicalMIMEHeaderKey k = c -> vs = []) ->
        sent_header (copyTo w entries dst) !! c = sent_header dst !! c).
Proof.
  intros Hr. cbn. split.
  - intros c vs Hc. exists (brought entries c).
    pose proof (values_copy_headers CanonicalMIMEHeaderKey entries (sent_header dst) c) as Hv.
    pose proof (copy_headers_lookup_None entries (sent_header dst) c) as Hn.
    unfold values in Hv. rewrite Hc in Hv, Hn. cbn in Hv.
    destruct (copy_headers entries (sent_header dst) !! c) as [x|]; cbn in Hv.
    + by rewrite Hv.
    + by destruct (proj1 Hn eq_refl).
  - intros c Hnone.
    assert (Hb : brought entries c = []).
    { apply brought_nil. apply Forall_forall. intros [k vs] Hin Hk. cbn in *.
      apply (Hnone k); [|done]. apply elem_of_map_to_list.
      unfold ranges in Hr. by rewrite <- Hr. }
    apply lookup_from_values.
    + by rewrite values_copy_headers, Hb, app_nil_r.
    + rewrite copy_headers_lookup_None, Hb. split; [by intros [? _]|by split].
Qed.

End Executor.

(** *** The properties on concrete requests *)

(** A handler that stores the user, then answers 204. *)
Definition signIn : list op := [ OpSet "user" "ann"; OpWriteHeader 204 ].

(** The request came with one key; the handler runs to its end and the
    [select] takes [done]. *)
Definition signedIn : state :=
  runLiteral tenthOfASecond [EvStep; EvStep; EvStep; EvCaseDone]
    (start stamped {[ "trace" := "t1" ]} signIn).

(** The deadline expires while the handler is at work. *)
Definition late (next : list op) : state :=
  runLiteral tenthOfASecond [EvStep; EvDeadline; EvCaseCtxDone] (start stamped ∅ next).

(** A buffered writer with two header keys, and the two orders of a
    [range] over them. *)
Definition twoHeaders : bufferedResponseWriter :=
  {| header := {[ "Etag" := ["v1"]; "Vary" := ["Accept"; "Origin"] ]}%string;
     buf := ok; status := 200 |}.

Definition etagFirst : list (string * list string) :=
  [("Etag", ["v1"]); ("Vary", ["Accept"; "Origin"])]%string.

Definition varyFirst : list (string * list string) :=
  [("Vary", ["Accept"; "Origin"]); ("Etag", ["v1"])]%string.

(** A sink on which an earlier middleware has already set [Vary]. *)
Definition varied : ResponseWriter :=
  {| sent_header := {[ "Vary" := ["Cookie"]; "X-Request-Id" := ["r1"] ]}%string;
     calls := [] |}.

Lemma etagFirst_ranges : ranges etagFirst (header twoHeaders).
Proof. unfold ranges. vm_compute. first [reflexivity | apply perm_swap]. Qed.

Lemma varyFirst_ranges : ranges varyFirst (header twoHeaders).
Proof. unfold ranges. vm_compute. first [reflexivity | apply perm_swap]. Qed.


(** X12 for a handler that writes, answers 500 and writes again. *)
Lemma last_status_wins_witness :
  status (replay ([OpWriteHeader 200; OpWrite ok] ++ OpWriteHeader 500 :: [OpWrite ok])) = 500
  /\ status (replay [OpWrite ok]) = 200
  /\ buf (replay ([OpWriteHeader 200; OpWrite ok] ++ OpWriteHeader 500 :: [OpWrite ok]))
     = buf (replay [OpWriteHeader 200; OpWrite ok]) ++ buf (replay [OpWrite ok]).
Proof.
  apply (last_status_wins [OpWriteHeader 200; OpWrite ok] [OpWrite ok] 500).
  reflexivity.
Defined.


Example user_is_lost_to_the_caller :
  c_Keys signedIn !! "user" = None /\ cp_Keys signedIn !! "user" = Some "ann"%string.
Proof. by vm_compute. Qed.

(** X14 for two handlers that are both overtaken by the deadline. *)
Lemma timeout_hides_the_handler_witness :
  originalRes (late created) = originalRes (late faulty)
  /\ sent_header (originalRes (late created))
     = <[id "Content-Type"%string := ["application/json"%string]]> (sent_header stamped)
  /\ calls (originalRes (late created))
     = calls stamped ++ [WriteHeaderCall (StatusCode tenthOfASecond);
                         WriteCall (printObject
                                      (timeoutBody RateLimit.printNanos tenthOfASecond))].
Proof.
  apply (timeout_hides_the_handler id printObject RateLimit.printNanos
           tenthOfASecond stamped ∅ ∅ created faulty (late created) (late faulty)).
  - eapply runLiteral_rtc. vm_compute. reflexivity.
  - eapply runLiteral_rtc. vm_compute. reflexivity.
  - reflexivity.
  - reflexivity.
Defined.

(** X24 on the run that the deadline ends. *)
Lemma return_restores_witness :
  match main (late created) with
  | Waiting =>
      c_Res (late created) = Buffer /\ c_aborted (late created) = false
      /\ originalRes (late created) = stamped
  | Returned b =>
      c_Res (late created) = Original /\ c_aborted (late created) = true
      /\ ctx_err (late created) <> None
      /\ (b = CaseDone -> goroutine (late created) = Closed)
      /\ (forall err, b = CaseCtxDone err -> ctx_err (late created) = Some err)
  end.
Proof.
  apply (return_restores id printObject RateLimit.printNanos
           tenthOfASecond stamped ∅ created (late created)).
  eapply runLiteral_rtc. vm_compute. reflexivity.
Defined.


(** X16 for the two orders of the two buffered keys. *)
Lemma copy_order_witness :
  calls (copyTo id twoHeaders etagFirst varied) = calls (copyTo id twoHeaders varyFirst varied)
  /\ (forall c, values (sent_header (copyTo id twoHeaders etagFirst varied)) c
                ≡ₚ values (sent_header (copyTo id twoHeaders varyFirst varied)) c)
  /\ ((forall k k', is_Some (header twoHeaders !! k) -> is_Some (header twoHeaders !! k') ->
         id k = id k' -> k = k') ->
      copyTo id twoHeaders etagFirst varied = copyTo id twoHeaders varyFirst varied).
Proof.
  apply (copy_order id twoHeaders etagFirst varyFirst varied).
  - apply etagFirst_ranges.
  - apply varyFirst_ranges.
Defined.

(** X17 for the sink that already has a [Vary] header. *)
Lemma copy_keeps_sink_headers_witness :
  (forall c vs, sent_header varied !! c = Some vs ->
     exists more, sent_header (copyTo id twoHeaders etagFirst varied) !! c = Some (vs ++ more))
  /\ (forall c,
        (forall k vs, header twoHeaders !! k = Some vs -> id k = c -> vs = []) ->
        sent_header (copyTo id twoHeaders etagFirst varied) !! c = sent_header varied !! c).
Proof.
  apply (copy_keeps_sink_headers id twoHeaders etagFirst varied).
  apply etagFirst_ranges.
Defined.

Example varied_sink :
  copyTo id twoHeaders etagFirst varied
  = {| sent_header := {[ "Vary" := ["Cookie"; "Accept"; "Origin"];
                         "X-Request-Id" := ["r1"]; "Etag" := ["v1"] ]}%string;
       calls := [WriteHeaderCall 200; WriteCall ok] |}.
Proof. by vm_compute. Qed.

End TimeoutMore.

(** ** The locks of [allow]: progress *)

Module AdmitLocksMore.
Import GoTime RateLimit AdmitLocks RateLimitMore.

(** The steps that a goroutine has at most left in [allow]. *)
Definition steps_left (p : pc) : nat :=
  match p with
  | AtEntry => 8
  | HoldsDir => 7
  | AtBucketLock _ => 6
  | HoldsBoth _ => 5
  | AfterReset _ => 4
  | Taking _ => 3
  | Returning _ => 2
  | ReleasingDir _ => 1
  | Finished _ => 0
  end.

(** The steps that the goroutines of a world have left, all together. *)
Definition work (w : world) : nat :=
  sum_list ((fun c => steps_left (pos c)) <$> callers w).

Definition is_Finished (p : pc) : bool :=
  match p with Finished _ => true | _ => false end.

(** The holder of a lock is one of the goroutines, and the holder of the
    [mu] of a bucket is a caller of the key of that bucket. *)
Definition holders_inv (w : world) : Prop :=
  (forall i, dir_mu w = Some i -> is_Some (callers w !! i))
  /\ (forall k j, bucket_mu w !! k = Some j ->
        exists c, callers w !! j = Some c /\ key c = k).

(** What a goroutine has got from [allow], once it has returned. *)
Definition result (c : caller) : option (string * verdict) :=
  match pos c with
  | Finished v => Some (key c, v)
  | _ => None
  end.

(** The calls that have returned, with their verdicts. *)
Definition returned (cs : list caller) : list (string * verdict) := omap result cs.



(** *** The holders of the locks *)

Lemma set_caller_keeps (w : world) (i j : nat) (k0 k : string) (p p' : pc) :
  callers w !! i = Some (Caller k0 p) ->
  (exists c, callers w !! j = Some c /\ key c = k) ->
  exists c, set_caller i (Caller k0 p') w !! j = Some c /\ key c = k.
Proof.
  intros Hi (c & Hj & Hk). unfold set_caller.
  destruct (decide (j = i)) as [->|Hne].
  - exists (Caller k0 p'). rewrite list_lookup_insert_eq by (by eapply lookup_lt_Some).
    split; [done|]. rewrite Hi in Hj. by simplify_eq.
  - exists c. by rewrite list_lookup_insert_ne.
Qed.

Lemma set_caller_is_Some (w : world) (i j : nat) (c : caller) :
  is_Some (callers w !! j) -> is_Some (set_caller i c w !! j).
Proof.
  unfold set_caller. rewrite !lookup_lt_is_Some. by rewrite length_insert.
Qed.

Lemma holders_inv_initial (w : world) : initial w -> holders_inv w.
Proof.
  intros (Hd & Hb & _). split.
  - intros i. by rewrite Hd.
  - intros k j. by rewrite Hb, lookup_empty.
Qed.

Lemma holders_inv_step (w w' : world) : holders_inv w -> step w w' -> holders_inv w'.
Proof.
  intros [Hdir Hbucket] [i Hstep].
  destruct Hstep as [w k Hi Hfree | w k now Hi | w k now Hi Hfree
                     | w k now b Hi Hbk r | w k reset b Hi Hbk
                     | w k reset b Hi Hbk r | w k v Hi | w k v Hi];
    (split; cbn [callers dir_mu bucket_mu limiter];
     [intros i' Hd | intros k' j Hj]);
    try (apply set_caller_is_Some; by apply Hdir);
    try (by eapply set_caller_keeps; [done | apply Hbucket]).
  - apply set_caller_is_Some. simplify_eq. by eexists.
  - destruct (decide (k' = k)) as [->|Hne].
    + rewrite lookup_insert_eq in Hj. simplify_eq.
      eapply set_caller_keeps; [done|]. by eexists.
    + rewrite lookup_insert_ne in Hj by done.
      by eapply set_caller_keeps; [done | apply Hbucket].
  - apply lookup_delete_Some in Hj as [_ Hj].
    by eapply set_caller_keeps; [done | apply Hbucket].
Qed.

Lemma holders_inv_reachable (w0 w : world) :
  initial w0 -> rtc step w0 w -> holders_inv w.
Proof.
  intros Hinit%holders_inv_initial Hrun.
  induction Hrun as [w|w w1 w2 Hstep _ IH]; [done|].
  apply IH. by apply holders_inv_step with w.
Qed.

Lemma in_bucket_in_allow (p : pc) : in_bucket p = true -> in_allow p = true.
Proof. by destruct p. Qed.

(** The goroutine that holds [rl.mu] can always take its next step. *)
Lemma holder_moves (w : world) (i : nat) :
  lock_inv w -> holders_inv w -> dir_mu w = Some i -> exists w', step_of i w w'.
Proof.
  intros Hinv [Hdir Hbucket] Hd.
  destruct (Hdir i Hd) as [[k p] Hi].
  destruct (Hinv i _ Hi) as (Hin & Hbk & Hknows). cbn [pos key] in *.
  apply Hin in Hd as Hp. unfold knows in Hknows. cbn [pos key] in Hknows.
  destruct p as [| |now|now|reset|reset|v|v|v]; try discriminate.
  - eexists. by apply get_or_create with (now := 0).
  - eexists. apply lock_bucket with (now := now); [done|].
    destruct (bucket_mu w !! k) as [j|] eqn:Hj; [|done]. exfalso.
    destruct (Hbucket k j Hj) as (cj & Hcj & Hkey).
    destruct (Hinv j cj Hcj) as (Hinj & Hbkj & _).
    rewrite Hkey in Hbkj. apply Hbkj in Hj as Hpj.
    apply in_bucket_in_allow, Hinj in Hpj.
    rewrite Hd in Hpj. assert (j = i) as -> by congruence.
    assert (cj = Caller k (AtBucketLock now)) as -> by congruence.
    cbn in Hbkj. by apply Hbkj in Hj.
  - destruct Hknows as [b Hb]. eexists. by eapply reset_check.
  - destruct Hknows as (b & Hb & _). eexists. by eapply token_test.
  - destruct Hknows as (b & Hb & _). eexists. by eapply take_token.
  - eexists. by eapply unlock_bucket.
  - eexists. by eapply unlock_dir.
Qed.

(** X18. Calls of [allow] do not deadlock: in every interleaving, either
    every call has returned or some goroutine can take a step. *)
Theorem allow_never_deadlocks (w0 w : world) :
  initial w0 -> rtc step w0 w ->
  Forall (fun c => is_Finished (pos c) = true) (callers w) \/ exists w', step w w'.
Proof.
  intros Hinit Hrun.
  pose proof (lock_inv_reachable w0 w Hinit Hrun) as Hinv.
  pose proof (holders_inv_reachable w0 w Hinit Hrun) as Hhold.
  destruct (dir_mu w) as [i|] eqn:Hd.
  - right. destruct (holder_moves w i Hinv Hhold Hd) as [w' Hstep].
    exists w'. by exists i.
  - destruct (decide (Forall (fun c => is_Finished (pos c) = true) (callers w)))
      as [Hall|Hsome]; [by left|right].
    apply not_Forall_Exists in Hsome; [|apply _].
    apply Exists_exists in Hsome as (c & Hc & Hnot).
    apply list_elem_of_lookup in Hc as [i Hi].
    destruct (Hinv i c Hi) as ([Hin _] & _ & _). rewrite Hd in Hin.
    destruct c as [k p]. cbn [pos] in *.
    destruct p; try (by destruct Hnot); try (by specialize (Hin eq_refl)).
    eexists. exists i. by eapply lock_dir.
Qed.

(** *** The number of steps *)

Lemma work_insert (f : caller -> nat) (l : list caller) :
  forall (i : nat) (c c' : caller),
    l !! i = Some c ->
    (sum_list (f <$> <[i := c']> l) + f c = sum_list (f <$> l) + f c')%nat.
Proof.
  induction l as [|x l IH]; intros [|i] c c' Hi; try done.
  - cbn in Hi. simplify_eq. csimpl. lia.
  - cbn in Hi. specialize (IH i c c' Hi). csimpl. lia.
Qed.

Lemma step_work (w w' : world) : step w w' -> (work w' < work w)%nat.
Proof.
  intros [i Hstep]. unfold work.
  destruct Hstep as [w k Hi Hfree | w k now Hi | w k now Hi Hfree
                     | w k now b Hi Hbk r | w k reset b Hi Hbk
                     | w k reset b Hi Hbk r | w k v Hi | w k v Hi];
    cbn [callers]; unfold set_caller;
    match goal with
    | |- context [<[i := ?c']> (callers w)] =>
        pose proof (work_insert (fun c => steps_left (pos c)) (callers w) i _ c' Hi) as Hw
    end; cbn [pos steps_left] in Hw; try lia.
  destruct (tokensAvailable b); cbn [pos steps_left] in Hw; lia.
Qed.

Lemma work_initial (w : world) : initial w -> work w = (8 * length (callers w))%nat.
Proof.
  intros (_ & _ & Hall). unfold work.
  induction Hall as [|c l Hc _ IH]; [done|]. cbn. rewrite Hc, IH. cbn. lia.
Qed.

(** X19. Calls of [allow] come to an end: an interleaving of [n] callers
    has at most [8 * n] steps, whatever the schedule and the clock, eight
    being the steps of one call. *)
Theorem allow_steps_bounded (w0 w : world) (n : nat) :
  initial w0 -> nsteps step n w0 w ->
  (n + work w <= 8 * length (callers w0))%nat.
Proof.
  intros Hinit Hrun. rewrite <- (work_initial w0 Hinit). clear Hinit.
  induction Hrun as [w|n w w1 w2 Hstep _ IH]; [lia|].
  apply step_work in Hstep. lia.
Qed.

(** *** The calls, one after the other *)







(** *** Two callers *)

(** The first goroutine runs its call, then the second, which reads the
    clock five nanoseconds later. *)
Definition oneThenOther : list (nat * Z) :=
  replicate 8 (0%nat, 0) ++ replicate 8 (1%nat, 5).

Definition bothReturned : world := default twoCallers (run oneThenOther twoCallers).

Lemma schedule_nsteps (schedule : list (nat * Z)) :
  forall w w', run schedule w = Some w' -> nsteps step (length schedule) w w'.
Proof.
  induction schedule as [|[i now] rest IH]; cbn; intros w w' H.
  - injection H as <-. apply nsteps_O.
  - destruct (exec i now w) as [w1|] eqn:He; [|done].
    eapply nsteps_l; [exists i; by apply exec_step_of with now | by apply IH].
Qed.


(** X18 while the first goroutine is inside: it can move on. *)
Lemma allow_never_deadlocks_witness :
  Forall (fun c => is_Finished (pos c) = true) (callers firstInside)
  \/ exists w', step firstInside w'.
Proof.
  apply (allow_never_deadlocks twoCallers firstInside).
  - apply twoCallers_initial.
  - apply firstInside_reachable.
Defined.

(** X19 on the sixteen steps of the two calls. *)
Lemma allow_steps_bounded_witness :
  (16 + work bothReturned <= 8 * length (callers twoCallers))%nat.
Proof.
  apply (allow_steps_bounded twoCallers bothReturned 16).
  - apply twoCallers_initial.
  - apply (schedule_nsteps oneThenOther). vm_compute. reflexivity.
Defined.


Example both_admitted :
  returned (callers bothReturned)
  = (allows (limiter twoCallers) [("a", 0); ("b", 5)]%string).1
  /\ limiter bothReturned = (allows (limiter twoCallers) [("a", 0); ("b", 5)]%string).2
  /\ work bothReturned = 0%nat.
Proof. by vm_compute. Qed.

End AdmitLocksMore.
